(** * Roster e-mail parser: a shallow embedding of
    [hilabs_hackathon_submission.py] and the properties of its
    extraction-and-normalisation pipeline.

    Layout: the Python data the program manipulates (strings as sequences of
    code points, JSON values, exceptions), the library calls it relies on
    ([str] methods, [json.loads], [json.dumps]), the program's own functions
    in source order, and then the theorems. *)

From Stdlib Require Import ZArith NArith Ascii String DecimalString.
From stdpp Require Import base decidable option list sorting gmap.

Set Warnings "-register-all".

Open Scope N_scope.
Open Scope list_scope.

(* ===================================================================== *)
(** ** Python strings *)
(* ===================================================================== *)

(** A Python [str] is a sequence of Unicode code points. *)
Abbreviation char := N (only parsing).
Abbreviation str := (list N) (only parsing).

(** An ASCII literal as a Python string. *)
Definition u (s : string) : str := N_of_ascii <$> list_ascii_of_string s.
Arguments u s%_string.

Module Ch.
Definition TAB : char := 9.
Definition LF : char := 10.
Definition CR : char := 13.
Definition SPACE : char := 32.
Definition DQUOTE : char := 34.
Definition SQUOTE : char := 39.
Definition PLUS : char := 43.
Definition COMMA : char := 44.
Definition MINUS : char := 45.
Definition DOT : char := 46.
Definition SLASH : char := 47.
Definition COLON : char := 58.
Definition LBRACKET : char := 91.
Definition BACKSLASH : char := 92.
Definition RBRACKET : char := 93.
Definition LBRACE : char := 123.
Definition RBRACE : char := 125.
End Ch.

(** [len(s)] as a Python integer, for strings and lists alike. *)
Definition len {A} (s : list A) : Z := Z.of_nat (length s).

(** [s.find(c)] for a one-character needle: the lowest index, or [-1]. *)
Fixpoint find_from (c : char) (s : str) (i : Z) : Z :=
  match s with
  | [] => (-1)%Z
  | x :: r => if x =? c then i else find_from c r (i + 1)%Z
  end.

Definition find (c : char) (s : str) : Z := find_from c s 0.

(** A slice bound as Python adjusts it: negative bounds count from the end,
    and the result is clamped to [0 .. len]. *)
Definition slice_bound (n i : Z) : Z :=
  let j := (if i <? 0 then i + n else i)%Z in
  Z.min n (Z.max 0 j).

(** [s[a:b]], for strings and lists alike. *)
Definition slice {A} (a b : Z) (s : list A) : list A :=
  let lo := slice_bound (len s) a in
  let hi := slice_bound (len s) b in
  take (Z.to_nat (hi - lo)) (drop (Z.to_nat lo) s).

(** [s.replace(old, new)] for one-character [old] and [new]. *)
Definition replace (old new : char) (s : str) : str :=
  (fun x => if x =? old then new else x) <$> s.

(** [Py_UNICODE_ISSPACE]: the code points [str.strip()] removes. *)
Definition isspace (c : char) : bool :=
  ((9 <=? c) && (c <=? 13)) || ((28 <=? c) && (c <=? 32))
  || (c =? 133) || (c =? 160) || (c =? 5760)
  || ((8192 <=? c) && (c <=? 8202))
  || (c =? 8232) || (c =? 8233) || (c =? 8239) || (c =? 8287) || (c =? 12288).

Fixpoint lstrip (s : str) : str :=
  match s with
  | [] => []
  | c :: r => if isspace c then lstrip r else s
  end.

Definition rstrip (s : str) : str := rev (lstrip (rev s)).

(** [s.strip()]. *)
Definition strip (s : str) : str := rstrip (lstrip s).

(** [sep.join(parts)]. *)
Fixpoint join (sep : str) (parts : list str) : str :=
  match parts with
  | [] => []
  | [p] => p
  | p :: rest => p ++ sep ++ join sep rest
  end.

(** [s.startswith(p)] and [s.endswith(p)]. *)
Fixpoint startswith (p s : str) : bool :=
  match p, s with
  | [], _ => true
  | _ :: _, [] => false
  | a :: p', b :: s' => (a =? b) && startswith p' s'
  end.

Definition endswith (p s : str) : bool := startswith (rev p) (rev s).

(** [s.rfind(c)] for a one-character needle: the highest index, or [-1]. *)
Definition rfind (c : char) (s : str) : Z :=
  let i := find c (rev s) in
  if (i =? -1)%Z then (-1)%Z else (len s - 1 - i)%Z.

(** [str.splitlines()] breaks a text at these code points, and at a
    carriage return followed by a line feed as at one break. *)
Definition is_linebreak (c : char) : bool :=
  ((10 <=? c) && (c <=? 13)) || ((28 <=? c) && (c <=? 30))
  || (c =? 133) || (c =? 8232) || (c =? 8233).

(** [s.splitlines()]; [cur] holds the current line, last character first. *)
Fixpoint splitlines_from (s cur : str) : list str :=
  match s with
  | [] => match cur with [] => [] | _ :: _ => [rev cur] end
  | c :: r =>
      if c =? Ch.CR then
        match r with
        | d :: r' =>
            if d =? Ch.LF then rev cur :: splitlines_from r' []
            else rev cur :: splitlines_from r []
        | [] => rev cur :: splitlines_from r []
        end
      else if is_linebreak c then rev cur :: splitlines_from r []
      else splitlines_from r (c :: cur)
  end.

Definition splitlines (s : str) : list str := splitlines_from s [].

(** [s.lower()] on the ASCII letters. Python also lowers cased letters
    outside ASCII; none of them lowers to ['.'], ['e'], ['m'] or ['l'], so
    the comparison with [".eml"] made by [main] is the same under both. *)
Definition lower (s : str) : str :=
  (fun c => if (65 <=? c) && (c <=? 90) then c + 32 else c) <$> s.

(** [str(n)] for an integer. *)
Definition str_of_int (z : Z) : str := u (NilZero.string_of_int (Z.to_int z)).

(* ===================================================================== *)
(** ** Exceptions and outcomes *)
(* ===================================================================== *)

(** The exceptions the program can meet. [SystemExit] derives from
    [BaseException] only, the others from [Exception]. *)
Inductive exn :=
  | JSONDecodeError
  | RecursionError
  | OSError
  | ValueError
  | RuntimeError
  | KeyError
  | LookupError
  | IllegalCharacterError
  | UnicodeEncodeError
  | SystemExit.

Definition is_Exception (e : exn) : bool :=
  match e with SystemExit => false | _ => true end.

(** What evaluating a Python expression or block gives. *)
Inductive outcome (A : Type) :=
  | Ret (a : A)
  | Raise (e : exn).
Arguments Ret {A} a.
Arguments Raise {A} e.

Definition bind {A B} (m : outcome A) (k : A → outcome B) : outcome B :=
  match m with Ret a => k a | Raise e => Raise e end.

(** [try: body  except Exception: handler]. *)
Definition try_except {A} (body : outcome A) (handler : outcome A) : outcome A :=
  match body with
  | Ret a => Ret a
  | Raise e => if is_Exception e then handler else Raise e
  end.

(* ===================================================================== *)
(** ** JSON values as [json.loads] builds them *)
(* ===================================================================== *)

(** [None], [bool], [int], [float], [str], [list] and [dict]. A float is
    kept as the text it was read from; a dict as its items in insertion
    order. *)
Inductive json :=
  | JNull
  | JBool (b : bool)
  | JInt (z : Z)
  | JFloat (lexeme : str)
  | JStr (s : str)
  | JArr (items : list json)
  | JObj (items : list (str * json)).

(** The two printing routines of the interpreter that are not modelled:
    [repr] of a float and [repr] of a string. *)
Class PyRuntime := {
  float_repr : str → str;
  str_repr : str → str
}.

(** [d[k] = v] on a dict: an existing key keeps its place. *)
Fixpoint dict_set (k : str) (v : json) (d : list (str * json)) : list (str * json) :=
  match d with
  | [] => [(k, v)]
  | (k', v') :: d' =>
      if decide (k' = k) then (k', v) :: d' else (k', v') :: dict_set k v d'
  end.

(** [dict(pairs)]. *)
Definition dict (pairs : list (str * json)) : list (str * json) :=
  fold_left (fun d kv => dict_set kv.1 kv.2 d) pairs [].

(** [d.get(k)] before the [None] default is applied. *)
Fixpoint dict_lookup (k : str) (d : list (str * json)) : option json :=
  match d with
  | [] => None
  | (k', v) :: d' => if decide (k' = k) then Some v else dict_lookup k d'
  end.

(** [repr(v)]. *)
Fixpoint py_repr `{PyRuntime} (v : json) : str :=
  match v with
  | JNull => u "None"
  | JBool true => u "True"
  | JBool false => u "False"
  | JInt z => str_of_int z
  | JFloat x => float_repr x
  | JStr s => str_repr s
  | JArr l => u "[" ++ join (u ", ") (map py_repr l) ++ u "]"
  | JObj d =>
      u "{"
      ++ join (u ", ") (map (fun kv => let '(k, x) := kv in str_repr k ++ u ": " ++ py_repr x) d)
      ++ u "}"
  end.

(** [str(v)]: a string is itself, anything else prints as its [repr]. *)
Definition py_str `{PyRuntime} (v : json) : str :=
  match v with
  | JStr s => s
  | _ => py_repr v
  end.

(* ===================================================================== *)
(** ** [json.loads]: the decoder of the standard library *)
(* ===================================================================== *)

(** The decoder works on a text and an index; here the index is the suffix
    that is still to be read. A scan either stops behind a value, fails
    (the decoder raises [JSONDecodeError]) or runs out of the fuel that
    bounds its nesting depth. *)
Inductive scan (A : Type) :=
  | Done (a : A) (rest : str)
  | Fail
  | OutOfFuel.
Arguments Done {A} a rest.
Arguments Fail {A}.
Arguments OutOfFuel {A}.

(** [WHITESPACE = [ \t\n\r]*]. *)
Definition is_ws (c : char) : bool :=
  (c =? Ch.SPACE) || (c =? Ch.TAB) || (c =? Ch.LF) || (c =? Ch.CR).

Fixpoint skip_ws (s : str) : str :=
  match s with
  | [] => []
  | c :: r => if is_ws c then skip_ws r else s
  end.

Definition is_digit (c : char) : bool := (48 <=? c) && (c <=? 57).

Definition hexval (c : char) : option N :=
  if is_digit c then Some (c - 48)
  else if (97 <=? c) && (c <=? 102) then Some (c - 87)
  else if (65 <=? c) && (c <=? 70) then Some (c - 55)
  else None.

(** The four hexadecimal digits of a [\uXXXX] escape. *)
Definition hex4 (a b c d : char) : option N :=
  match hexval a, hexval b, hexval c, hexval d with
  | Some x, Some y, Some z, Some w => Some (4096 * x + 256 * y + 16 * z + w)
  | _, _, _, _ => None
  end.

(** [BACKSLASH]: the one-letter escapes. *)
Definition backslash (c : char) : option char :=
  if c =? Ch.DQUOTE then Some Ch.DQUOTE
  else if c =? Ch.BACKSLASH then Some Ch.BACKSLASH
  else if c =? Ch.SLASH then Some Ch.SLASH
  else if c =? 98 then Some 8
  else if c =? 102 then Some 12
  else if c =? 110 then Some Ch.LF
  else if c =? 114 then Some Ch.CR
  else if c =? 116 then Some Ch.TAB
  else None.

Definition is_high_surrogate (c : N) : bool := (55296 <=? c) && (c <=? 56319).
Definition is_low_surrogate (c : N) : bool := (56320 <=? c) && (c <=? 57343).
Definition join_surrogates (hi lo : N) : N :=
  65536 + (1024 * (hi - 55296) + (lo - 56320)).

(** [scanstring(s, end, strict=True)], entered behind the opening quote;
    [acc] holds the characters read so far, last one first. *)
Fixpoint scanstring (s : str) (acc : str) : option (str * str) :=
  match s with
  | [] => None
  | c :: r =>
      if c =? Ch.DQUOTE then Some (rev acc, r)
      else if c =? Ch.BACKSLASH then
        match r with
        | [] => None
        | e :: r1 =>
            if e =? 117 then
              match r1 with
              | h1 :: h2 :: h3 :: h4 :: r2 =>
                  match hex4 h1 h2 h3 h4 with
                  | None => None
                  | Some uni =>
                      match r2 with
                      | b :: l :: g1 :: g2 :: g3 :: g4 :: r3 =>
                          if is_high_surrogate uni && (b =? Ch.BACKSLASH) && (l =? 117) then
                            match hex4 g1 g2 g3 g4 with
                            | None => None
                            | Some uni2 =>
                                if is_low_surrogate uni2
                                then scanstring r3 (join_surrogates uni uni2 :: acc)
                                else scanstring r2 (uni :: acc)
                            end
                          else scanstring r2 (uni :: acc)
                      | _ => scanstring r2 (uni :: acc)
                      end
                  end
              | _ => None
              end
            else
              match backslash e with
              | Some x => scanstring r1 (x :: acc)
              | None => None
              end
        end
      else if c <=? 31 then None
      else scanstring r (c :: acc)
  end.

(** The longest run of decimal digits at the head of [s], and what follows. *)
Fixpoint span_digits (s : str) : str * str :=
  match s with
  | [] => ([], [])
  | c :: r =>
      if is_digit c then let '(ds, rest) := span_digits r in (c :: ds, rest)
      else ([], s)
  end.

(** [int(digits)]. *)
Definition int_of_digits (ds : str) : Z :=
  Z.of_N (fold_left (fun acc d => 10 * acc + (d - 48)) ds 0).

(** [NUMBER_RE]: an optional minus sign, then [0] or a digit run that does
    not start with [0]; an optional fraction (a dot and digits); an optional
    exponent ([e] or [E], an optional sign, digits). Returns the integer
    part, the fraction and the exponent (each possibly empty), and the rest
    of the text. *)
Definition match_number (s : str) : option (str * str * str * str) :=
  let '(sign, s1) :=
    match s with
    | c :: r => if c =? Ch.MINUS then ([c], r) else ([], s)
    | [] => ([], s)
    end in
  let integer :=
    match s1 with
    | d :: r =>
        if d =? 48 then Some ([d], r)
        else if is_digit d then let '(ds, rest) := span_digits r in Some (d :: ds, rest)
        else None
    | [] => None
    end in
  match integer with
  | None => None
  | Some (ip, s2) =>
      let '(frac, s3) :=
        match s2 with
        | p :: d :: r =>
            if (p =? Ch.DOT) && is_digit d
            then let '(ds, rest) := span_digits r in (p :: d :: ds, rest)
            else ([], s2)
        | _ => ([], s2)
        end in
      let '(expo, s4) :=
        match s3 with
        | e :: r =>
            if (e =? 101) || (e =? 69) then
              let '(sg, r1) :=
                match r with
                | c :: r' => if (c =? Ch.PLUS) || (c =? Ch.MINUS) then ([c], r') else ([], r)
                | [] => ([], r)
                end in
              let '(ds, rest) := span_digits r1 in
              match ds with
              | [] => ([], s3)
              | _ :: _ => (e :: sg ++ ds, rest)
              end
            else ([], s3)
        | [] => ([], s3)
        end in
      Some (sign ++ ip, frac, expo, s4)
  end.

(** The value of a matched number: [int(integer)] when there is neither a
    fraction nor an exponent, [float(integer + frac + exp)] otherwise. *)
Definition number_value (integer frac expo : str) : json :=
  match frac, expo with
  | [], [] =>
      match integer with
      | c :: ds => if c =? Ch.MINUS then JInt (- int_of_digits ds) else JInt (int_of_digits integer)
      | [] => JInt 0
      end
  | _, _ => JFloat (integer ++ frac ++ expo)
  end.

(** [scan_once], [JSONObject] and [JSONArray]. [object_loop] is the
    [while True] of [JSONObject], entered behind the opening quote of a key;
    [array_loop] is that of [JSONArray], entered at a value. *)
Fixpoint scan_once (fuel : nat) (s : str) {struct fuel} : scan json :=
  match fuel with
  | O => OutOfFuel
  | S fuel' =>
      match s with
      | [] => Fail
      | c :: r =>
          if c =? Ch.DQUOTE then
            match scanstring r [] with
            | Some (v, rest) => Done (JStr v) rest
            | None => Fail
            end
          else if c =? Ch.LBRACE then
            match skip_ws r with
            | c1 :: r1 =>
                if c1 =? Ch.RBRACE then Done (JObj []) r1
                else if c1 =? Ch.DQUOTE then object_loop fuel' r1 []
                else Fail
            | [] => Fail
            end
          else if c =? Ch.LBRACKET then
            match skip_ws r with
            | c1 :: r1 =>
                if c1 =? Ch.RBRACKET then Done (JArr []) r1
                else array_loop fuel' (c1 :: r1) []
            | [] => Fail
            end
          else if startswith (u "null") s then Done JNull (drop 4 s)
          else if startswith (u "true") s then Done (JBool true) (drop 4 s)
          else if startswith (u "false") s then Done (JBool false) (drop 5 s)
          else if startswith (u "NaN") s then Done (JFloat (u "NaN")) (drop 3 s)
          else if startswith (u "Infinity") s then Done (JFloat (u "Infinity")) (drop 8 s)
          else if startswith (u "-Infinity") s then Done (JFloat (u "-Infinity")) (drop 9 s)
          else
            match match_number s with
            | Some (integer, frac, expo, rest) => Done (number_value integer frac expo) rest
            | None => Fail
            end
      end
  end
with object_loop (fuel : nat) (s : str) (pairs : list (str * json)) {struct fuel} : scan json :=
  match fuel with
  | O => OutOfFuel
  | S fuel' =>
      match scanstring s [] with
      | None => Fail
      | Some (key, r) =>
          match skip_ws r with
          | c :: r1 =>
              if c =? Ch.COLON then
                match scan_once fuel' (skip_ws r1) with
                | Done value r2 =>
                    let pairs' := pairs ++ [(key, value)] in
                    match skip_ws r2 with
                    | c2 :: r3 =>
                        if c2 =? Ch.RBRACE then Done (JObj (dict pairs')) r3
                        else if c2 =? Ch.COMMA then
                          match skip_ws r3 with
                          | c3 :: r4 =>
                              if c3 =? Ch.DQUOTE then object_loop fuel' r4 pairs' else Fail
                          | [] => Fail
                          end
                        else Fail
                    | [] => Fail
                    end
                | Fail => Fail
                | OutOfFuel => OutOfFuel
                end
              else Fail
          | [] => Fail
          end
      end
  end
with array_loop (fuel : nat) (s : str) (values : list json) {struct fuel} : scan json :=
  match fuel with
  | O => OutOfFuel
  | S fuel' =>
      match scan_once fuel' s with
      | Done value r =>
          let values' := values ++ [value] in
          match skip_ws r with
          | c :: r1 =>
              if c =? Ch.RBRACKET then Done (JArr values') r1
              else if c =? Ch.COMMA then array_loop fuel' (skip_ws r1) values'
              else Fail
          | [] => Fail
          end
      | Fail => Fail
      | OutOfFuel => OutOfFuel
      end
  end.

(** [json.loads(s)] for a [str]: no byte-order mark, one value, and nothing
    but whitespace around it. The fuel is more than the text can use
    ([json_loads_total] below), so [RecursionError] stands only for the
    interpreter's own recursion limit, which is not modelled. *)
Definition json_loads (s : str) : outcome json :=
  if startswith [65279] s then Raise JSONDecodeError
  else
    match scan_once (S (2 * length s)) (skip_ws s) with
    | Done v rest =>
        match skip_ws rest with
        | [] => Ret v
        | _ :: _ => Raise JSONDecodeError
        end
    | Fail => Raise JSONDecodeError
    | OutOfFuel => Raise RecursionError
    end.

(* ===================================================================== *)
(** ** [json.dumps(d, indent=2)] for a dict of strings *)
(* ===================================================================== *)

Definition hex_digit (n : N) : char := if n <? 10 then 48 + n else 87 + n.

(** [\uXXXX] with four lower-case hexadecimal digits. *)
Definition u_escape (n : N) : str :=
  [Ch.BACKSLASH; 117;
   hex_digit ((n / 4096) mod 16); hex_digit ((n / 256) mod 16);
   hex_digit ((n / 16) mod 16); hex_digit (n mod 16)].

(** [ESCAPE_DCT] and the replacement function of
    [py_encode_basestring_ascii]. *)
Definition escape_char (c : char) : str :=
  if c =? Ch.DQUOTE then [Ch.BACKSLASH; Ch.DQUOTE]
  else if c =? Ch.BACKSLASH then [Ch.BACKSLASH; Ch.BACKSLASH]
  else if c =? Ch.LF then [Ch.BACKSLASH; 110]
  else if c =? Ch.CR then [Ch.BACKSLASH; 114]
  else if c =? Ch.TAB then [Ch.BACKSLASH; 116]
  else if c =? 12 then [Ch.BACKSLASH; 102]
  else if c =? 8 then [Ch.BACKSLASH; 98]
  else if (32 <=? c) && (c <=? 126) then [c]
  else if c <? 65536 then u_escape c
  else
    let n := c - 65536 in
    u_escape (55296 + (n / 1024) mod 1024) ++ u_escape (56320 + n mod 1024).

Definition encode_basestring_ascii (s : str) : str :=
  [Ch.DQUOTE] ++ flat_map escape_char s ++ [Ch.DQUOTE].

(** [json.dumps(d, indent=2)]: one item per line, two spaces deep, [", "]
    replaced by a comma and a line break, [": "] between key and value. *)
Definition json_dumps_indent2 (d : list (str * str)) : str :=
  match d with
  | [] => u "{}"
  | _ :: _ =>
      u "{" ++ [Ch.LF] ++ u "  "
      ++ join ([Ch.COMMA; Ch.LF] ++ u "  ")
           (map (fun kv => encode_basestring_ascii kv.1 ++ u ": " ++ encode_basestring_ascii kv.2) d)
      ++ [Ch.LF] ++ u "}"
  end.

(* ===================================================================== *)
(** ** The program *)
(* ===================================================================== *)

(** *** Collaborators *)

(** A parsed e-mail: a multipart container with its parts, or a leaf with
    its content type and what [get_content()] gives for it: the content,
    or the exception it raises ([KeyError] for a content type no content
    manager handles, [LookupError] for a text part in an unknown
    charset). *)
Inductive message :=
  | Multipart (subs : list message)
  | Leaf (ctype : str) (content : outcome str).

(** A cell value of the spreadsheet. *)
Inductive cell :=
  | CNone
  | CStr (s : str)
  | CInt (z : Z)
  | CFloat (x : str)
  | CBool (b : bool).

(** A path is the list of its parts; the active sheet of a workbook is the
    list of its rows. *)
Abbreviation Path := (list (list N)) (only parsing).
Abbreviation sheet := (list (list cell)) (only parsing).

(** The device map a model is loaded with. *)
Inductive device := Auto | Cpu.

(** What the program calls and the file does not define: opening and parsing
    an e-mail file ([open] and [BytesParser.parse]), BeautifulSoup's
    [get_text], loading the tokenizer and the model on a device map and
    building the pipeline from them, the text-generation pipeline that was
    loaded (its [generated_text], or an exception), openpyxl's
    [delete_rows(0)] (row numbers start at 1, so the effect of this call
    is left open), whether a file can be opened for writing, what the
    workbook writer makes of a sheet (it returns, or raises: on a lone
    surrogate in a cell, for one, which cannot be encoded), and the
    directory tree [main] inspects: [is_dir], [is_file], and the names of
    a directory's entries in the order the operating system lists them. *)
Class World := {
  open_eml : Path → outcome message;
  soup_get_text : str → str;
  load_pipeline : device → outcome unit;
  pipe : str → outcome str;
  delete_rows0 : sheet → sheet;
  writable : Path → bool;
  serialize : sheet → outcome unit;
  is_dir : Path → bool;
  is_file : Path → bool;
  scandir : Path → list str
}.

(** *** [load_eml_text] *)

(** [walk] gives what it appends to [parts], or the exception of the first
    leaf, in document order, whose [get_content()] raises. *)
Fixpoint walk `{World} (m : message) : outcome (list str) :=
  match m with
  | Multipart subs =>
      (fix walk_parts (subs : list message) : outcome (list str) :=
         match subs with
         | [] => Ret []
         | sub :: rest =>
             bind (walk sub) (fun parts =>
             bind (walk_parts rest) (fun parts' => Ret (parts ++ parts')))
         end) subs
  | Leaf ctype content =>
      bind content (fun payload =>
        Ret match payload with
            | [] => []
            | _ :: _ =>
                if decide (ctype = u "text/plain") then [payload]
                else if decide (ctype = u "text/html") then [soup_get_text payload]
                else []
            end)
  end.

Definition nonblank (p : str) : bool :=
  match p with [] => false | _ :: _ => negb (bool_decide (strip p = [])) end.

Definition load_eml_text `{World} (path : Path) : outcome str :=
  bind (open_eml path) (fun msg =>
  bind (walk msg) (fun parts =>
    let text := join [Ch.LF] (filter (fun p => nonblank p = true) parts) in
    let text := join [Ch.LF] (map rstrip (splitlines text)) in
    Ret (strip text))).

(** *** [get_llm_pipe] *)

(** The attempt on the device map [auto] and, after any [Exception] from
    it, the unguarded attempt on the CPU. The pipeline it returns is
    [pipe]. *)
Definition get_llm_pipe `{World} : outcome unit :=
  try_except (load_pipeline Auto) (load_pipeline Cpu).

(** *** [make_prompt] *)

Definition schema : list (str * str) :=
  [ (u "transaction_type",
     u "Add | Update | Term | Information not found");
    (u "transaction_attribute",
     u "string or 'Information not found'");
    (u "effective_date",
     u "MM/DD/YYYY or 'Information not found'");
    (u "term_date",
     u "MM/DD/YYYY or 'Information not found'");
    (u "term_reason",
     u "string or 'Information not found'");
    (u "provider_name",
     u "string or 'Information not found' Only output the name not their designation");
    (u "provider_npi",
     u "digits or 'Information not found'");
    (u "provider_specialty",
     u "string or 'Information not found'");
    (u "state_license",
     u "string or 'Information not found'");
    (u "organization_name",
     u "string or 'Information not found'");
    (u "tin",
     u "digits or 'Information not found'(It is the Tax Id No.)");
    (u "group_npi",
     u "digits or 'Information not found' (It is NPI of Default Provider)");
    (u "complete_address",
     u "string or 'Information not found'");
    (u "phone_number",
     u "digits or 'Information not found'");
    (u "fax_number",
     u "digits or 'Information not found'");
    (u "ppg_id",
     u "string (single or comma-separated) or 'Information not found'");
    (u "line_of_business",
     u "'Medicare' or 'Commercial' or 'Medical' or 'Information not found'  Only these strings should be the output") ].

(** The text of the f-string before [{schema_text}], between it and
    [{email_text}], and behind. *)
Definition prompt_head : str :=
  [Ch.LF]
  ++ u "You are a STRUCTURED-EXTRACTION model. Extract values from the EMAIL below and RETURN STRICT JSON ONLY (no commentary)."
  ++ [Ch.LF]
  ++ u "If a value cannot be found, set it exactly to " ++ [Ch.DQUOTE]
  ++ u "Information not found" ++ [Ch.DQUOTE] ++ u "."
  ++ [Ch.LF]
  ++ u "Dates must be normalized to MM/DD/YYYY when possible."
  ++ [Ch.LF]
  ++ u "Return a JSON object with the following keys and value formats (exact keys must be used):"
  ++ [Ch.LF; Ch.LF].

Definition prompt_middle : str :=
  [Ch.LF; Ch.LF] ++ u "Email:" ++ [Ch.LF; Ch.DQUOTE; Ch.DQUOTE; Ch.DQUOTE].

Definition prompt_tail : str :=
  [Ch.DQUOTE; Ch.DQUOTE; Ch.DQUOTE; Ch.LF; Ch.LF]
  ++ u "IMPORTANT: Return only valid JSON (a single JSON object) and nothing else."
  ++ [Ch.LF].

Definition make_prompt (email_text : str) : str :=
  let schema_text := json_dumps_indent2 schema in
  prompt_head ++ schema_text ++ prompt_middle ++ email_text ++ prompt_tail.

(** *** [extract_with_llm] *)

Definition is_dict (v : json) : bool :=
  match v with JObj _ => true | _ => false end.

(** Lines 109-118: the [try] block, on the text between the braces. *)
Definition loads_with_repair (raw : str) : outcome json :=
  try_except
    (bind (json_loads raw) (fun data => Ret (if is_dict data then data else JObj [])))
    (try_except
       (let fixed := replace Ch.SQUOTE Ch.DQUOTE raw in json_loads fixed)
       (Ret (JObj []))).

(** Lines 102-118: from the generated text to the returned value. *)
Definition parse_generated_text (out : str) : outcome json :=
  let s := find Ch.LBRACE out in
  let e := find Ch.RBRACE out in
  if ((s =? -1) || (e =? -1) || (e <=? s))%Z then Ret (JObj [])
  else
    let raw := slice s (e + 1) out in
    loads_with_repair raw.

Definition extract_with_llm `{World} (email_text : str) : outcome json :=
  let prompt := make_prompt email_text in
  bind (pipe prompt) parse_generated_text.

(** *** [TEMPLATE_TO_KEY] *)

Definition TEMPLATE_TO_KEY : gmap str str :=
  list_to_map
  [ (u "Transaction Type (Add/Update/Term)",
     u "transaction_type");
    (u "Transaction Attribute",
     u "transaction_attribute");
    (u "Effective Date",
     u "effective_date");
    (u "Term Date",
     u "term_date");
    (u "Term Reason",
     u "term_reason");
    (u "Provider Name",
     u "provider_name");
    (u "Provider NPI",
     u "provider_npi");
    (u "Provider Specialty",
     u "provider_specialty");
    (u "State License",
     u "state_license");
    (u "Organization Name",
     u "organization_name");
    (u "TIN",
     u "tin");
    (u "Group NPI",
     u "group_npi");
    (u "Complete Address",
     u "complete_address");
    (u "Phone Number",
     u "phone_number");
    (u "Fax Number",
     u "fax_number");
    (u "PPG ID",
     u "ppg_id");
    (u "Line Of Business (Medicare/Commercial/Medical)",
     u "line_of_business") ].

(** *** The workbook *)

(** The files that hold workbooks, and what was printed: the path of each
    [Processed:] line. *)
Record state := {
  files : gmap Path (sheet);
  stdout : list Path
}.

(** A block of the program: it runs in a state, ends in a state, and either
    returns or raises. *)
Definition M (A : Type) : Type := state → outcome A * state.

Definition mret' {A} (a : A) : M A := fun st => (Ret a, st).

Definition mbind' {A B} (m : M A) (k : A → M B) : M B :=
  fun st =>
    match m st with
    | (Ret a, st') => k a st'
    | (Raise e, st') => (Raise e, st')
    end.

Definition lift {A} (o : outcome A) : M A := fun st => (o, st).

Notation "'let*' x ':=' m 'in' k" := (mbind' m (fun x => k))
  (at level 10, x name, m at level 100, k at level 200).

(** [openpyxl.load_workbook(path).active]. *)
Definition load_workbook (path : Path) : M sheet :=
  fun st =>
    match files st !! path with
    | Some ws => (Ret ws, st)
    | None => (Raise OSError, st)
    end.

(** [wb.save(path)]: the file cannot be opened for writing and stays as it
    is; or it is opened, and then either the workbook is written, or the
    writer raises on the content and what is left at [path] is no
    workbook. *)
Definition save `{World} (path : Path) (ws : sheet) : M unit :=
  fun st =>
    if negb (writable path) then (Raise OSError, st)
    else
      match serialize ws with
      | Ret _ => (Ret tt, {| files := <[path := ws]> (files st); stdout := stdout st |})
      | Raise e => (Raise e, {| files := delete path (files st); stdout := stdout st |})
      end.

(** [print(f"Processed: {eml_path}")]. *)
Definition print_processed (eml_path : Path) : M unit :=
  fun st => (Ret tt, {| files := files st; stdout := stdout st ++ [eml_path] |}).

(** [ws.max_column], at least 1. *)
Definition max_column (ws : sheet) : nat :=
  foldr (fun r m => Nat.max (length r) m) 1%nat ws.

(** [ws[1]]: the cells of the first row, out to the last used column. *)
Definition ws_row1 (ws : sheet) : list cell :=
  let r := match ws with [] => [] | r :: _ => r end in
  r ++ replicate (max_column ws - length r)%nat CNone.

(** The characters a cell refuses: the control characters other than tab,
    line feed and carriage return. *)
Definition illegal_character (c : char) : bool :=
  (c <=? 8) || ((11 <=? c) && (c <=? 12)) || ((14 <=? c) && (c <=? 31)).

(** [Cell.check_string]: a string is cut to 32767 characters, and refused
    if what is left holds an illegal character. *)
Definition check_string (value : str) : outcome str :=
  let value := slice 0 32767 value in
  if existsb illegal_character value then Raise IllegalCharacterError
  else Ret value.

(** The cells of a new row, bound from left to right. *)
Fixpoint bind_values (row_values : list str) : outcome (list cell) :=
  match row_values with
  | [] => Ret []
  | value :: rest =>
      bind (check_string value) (fun value =>
      bind (bind_values rest) (fun cells => Ret (CStr value :: cells)))
  end.

(** [ws.append(row_values)] for a list of strings. *)
Definition ws_append (ws : sheet) (row_values : list str) : outcome sheet :=
  bind (bind_values row_values) (fun cells => Ret (ws ++ [cells])).

(** *** [append_row_to_template] *)

Definition append_row_to_template `{World}
    (template_path out_path : Path) (row_values : list str) : M unit :=
  let* ws := load_workbook template_path in
  let ws := delete_rows0 ws in
  let* ws := lift (ws_append ws row_values) in
  save out_path ws.

(** *** [process_eml_files] *)

Definition sentinel : str := u "Information not found".

(** Line 155: [TEMPLATE_TO_KEY.get(h, None)] for each header. *)
Definition keys_in_order (headers : list cell) : list (option str) :=
  map (fun h => match h with CStr s => TEMPLATE_TO_KEY !! s | _ => None end) headers.

(** [extracted.get(k) if isinstance(extracted, dict) else None], with
    [JNull] for [None]. *)
Definition extracted_get (extracted : json) (k : str) : json :=
  match extracted with
  | JObj d => default JNull (dict_lookup k d)
  | _ => JNull
  end.

(** Lines 167-174: the value stored under one key. *)
Definition final_value `{PyRuntime} (v : json) : str :=
  if match v with
     | JNull => true
     | JStr s => bool_decide (strip s = [])
     | _ => false
     end
  then sentinel
  else
    match v with
    | JArr l => join (u ", ") (map py_str l)
    | _ => strip (py_str v)
    end.

(** Lines 164-174: the loop over [set(TEMPLATE_TO_KEY.values())] that
    fills [final]. *)
Definition normalize `{PyRuntime} (extracted : json) : gmap str str :=
  set_fold (fun k final => <[k := final_value (extracted_get extracted k)]> final)
    ∅ (map_img TEMPLATE_TO_KEY : gset str).

(** Lines 177-183: the row in template order. *)
Definition build_row (final : gmap str str) (keys : list (option str)) : list str :=
  fold_left
    (fun row key =>
       match key with
       | None => row ++ [sentinel]
       | Some k => row ++ [default sentinel (final !! k)]
       end)
    keys [].

(** The body of the [for eml_path in eml_paths] loop, and the loop. *)
Definition process_one `{PyRuntime} `{World}
    (keys : list (option str)) (template_path out_path eml_path : Path) : M unit :=
  let* email_text := lift (load_eml_text eml_path) in
  let* extracted := lift (extract_with_llm email_text) in
  let final := normalize extracted in
  let row := build_row final keys in
  let* _ := append_row_to_template template_path out_path row in
  print_processed eml_path.

Fixpoint process_loop `{PyRuntime} `{World}
    (keys : list (option str)) (template_path out_path : Path)
    (eml_paths : list Path) : M unit :=
  match eml_paths with
  | [] => mret' tt
  | eml_path :: rest =>
      let* _ := process_one keys template_path out_path eml_path in
      process_loop keys template_path out_path rest
  end.

Definition process_eml_files `{PyRuntime} `{World}
    (eml_paths : list Path) (template_path out_path : Path) : M unit :=
  let* ws := load_workbook template_path in
  let headers := ws_row1 ws in
  let keys := keys_in_order headers in
  let* _ := save out_path ws in
  process_loop keys template_path out_path eml_paths.

(** *** [main] *)

(** [Path.name]: the last part, or the empty string for a path that is
    empty or only a root. *)
Definition name (p : Path) : str :=
  if decide (p = [u "/"]) then [] else default [] (last p).

(** [Path.suffix]. *)
Definition suffix (p : Path) : str :=
  let nm := name p in
  let i := rfind Ch.DOT nm in
  if ((0 <? i) && (i <? len nm - 1))%Z then slice i (len nm) nm else [].

(** [fnmatch] against the pattern [*.eml]. *)
Definition fnmatch_eml (entry_name : str) : bool := endswith (u ".eml") entry_name.

(** [eml_input.glob("*.eml")]: the matching entries, in the order the
    directory lists them. *)
Definition glob_eml `{World} (eml_input : Path) : list Path :=
  map (fun n => eml_input ++ [n]) (filter (fun n => fnmatch_eml n = true) (scandir eml_input)).

(** Sequences compare by their first differing elements, a proper prefix
    being smaller: strings by code point, paths part by part. *)
Definition str_compare : str → str → comparison := list_compare N.compare.
Definition path_compare : Path → Path → comparison := list_compare str_compare.

(** [a < b] on paths. *)
Definition path_lt (a b : Path) : bool :=
  match path_compare a b with Lt => true | _ => false end.

(** [sorted(l)]: a stable sort that only asks whether one element is less
    than another. *)
Fixpoint insert_sorted (x : Path) (l : list Path) : list Path :=
  match l with
  | [] => [x]
  | y :: l' => if path_lt y x then y :: insert_sorted x l' else x :: l
  end.

Definition sorted (l : list Path) : list Path := foldr insert_sorted [] l.

(** Lines 227-235: the e-mails to process. *)
Definition collect_eml_paths `{World} (eml_input : Path) : outcome (list Path) :=
  bind
    (if is_dir eml_input then Ret (sorted (glob_eml eml_input))
     else if is_file eml_input && bool_decide (lower (suffix eml_input) = u ".eml")
     then Ret [eml_input]
     else Raise SystemExit)
    (fun eml_paths =>
       match eml_paths with
       | [] => Raise SystemExit
       | _ :: _ => Ret eml_paths
       end).

(** [range(0, stop, step)]. *)
Definition range0 (stop step : Z) : outcome (list Z) :=
  if (step =? 0)%Z then Raise ValueError
  else
    let count :=
      if (0 <? step)%Z
      then (if (0 <? stop)%Z then (stop + step - 1) / step else 0)%Z
      else (if (stop <? 0)%Z then (- stop - step - 1) / (- step) else 0)%Z in
    Ret (map (fun k => (Z.of_nat k * step)%Z) (seq 0 (Z.to_nat count))).

(** Lines 246-250: one call of [process_eml_files] per batch. *)
Fixpoint run_batches `{PyRuntime} `{World}
    (starts : list Z) (batch : Z) (eml_paths : list Path)
    (template_path out_path : Path) : M unit :=
  match starts with
  | [] => mret' tt
  | i :: rest =>
      let batch_files := slice i (i + batch) eml_paths in
      let* _ := process_eml_files batch_files template_path out_path in
      run_batches rest batch eml_paths template_path out_path
  end.

(** [main], from the parsed arguments on. The progress lines other than
    [Processed:] leave no trace in the state. *)
Definition main `{PyRuntime} `{World}
    (eml_input template_path out_path : Path) (batch : Z) : M unit :=
  let* eml_paths := lift (collect_eml_paths eml_input) in
  let* _ := lift get_llm_pipe in
  let* starts := lift (range0 (len eml_paths) batch) in
  run_batches starts batch eml_paths template_path out_path.

(* ===================================================================== *)
(** ** Notions the statements use *)
(* ===================================================================== *)

(** A normalised record read back as a candidate record: a dict of
    strings. *)
Definition record_as_json (r : gmap str str) : json :=
  JObj (map (fun kv => (kv.1, JStr kv.2)) (map_to_list r)).

(** The record that holds the sentinel under every field name. *)
Definition sentinel_record : gmap str str :=
  gset_to_gmap sentinel (map_img TEMPLATE_TO_KEY).

(** The cell written for one entry of [keys_in_order]. *)
Definition row_cell (final : gmap str str) (key : option str) : str :=
  match key with
  | None => sentinel
  | Some k => default sentinel (final !! k)
  end.

(** [a <= b] on paths: [b] is not less than [a]. *)
Definition path_le (a b : Path) : Prop := path_lt b a = false.

(** What a comparison must satisfy for the order it induces on lists to be
    a total order. *)
Definition good_compare {A} (cmp : A → A → comparison) : Prop :=
  (∀ x y, cmp x y = Eq ↔ x = y)
  ∧ (∀ x y, cmp y x = CompOpp (cmp x y))
  ∧ (∀ x y z c, cmp x y = c → cmp y z = c → cmp x z = c).

(** The row the loop body computes for one e-mail, lines 161-183. *)
Definition row_of `{PyRuntime} `{World}
    (keys : list (option str)) (eml_path : Path) : outcome (list str) :=
  bind (load_eml_text eml_path) (fun email_text =>
  bind (extract_with_llm email_text) (fun extracted =>
  Ret (build_row (normalize extracted) keys))).

(** A message none of whose leaves gives text: for each leaf
    [get_content()] returns, and the content is empty or the leaf is
    neither [text/plain] nor [text/html]. *)
Inductive no_text : message → Prop :=
  | no_text_leaf ctype payload :
      payload = [] ∨ (ctype ≠ u "text/plain" ∧ ctype ≠ u "text/html") →
      no_text (Leaf ctype (Ret payload))
  | no_text_multipart subs :
      Forall no_text subs → no_text (Multipart subs).

(** An e-mail whose pipeline runs through: its text can be loaded and the
    text-generation pipeline returns for its prompt. *)
Definition email_ok `{World} (eml_path : Path) : Prop :=
  ∃ email_text out,
    load_eml_text eml_path = Ret email_text
    ∧ pipe (make_prompt email_text) = Ret out.

(** What [get_content()] gives for the leaves of a message, in document
    order, and the first exception among them. *)
Fixpoint contents (m : message) : list (outcome str) :=
  match m with
  | Multipart subs => flat_map contents subs
  | Leaf _ content => [content]
  end.

Fixpoint first_raise {A} (l : list (outcome A)) : option exn :=
  match l with
  | [] => None
  | Ret _ :: rest => first_raise rest
  | Raise e :: _ => Some e
  end.

(** A row every value of which a cell accepts. *)
Definition legal_row (row : list str) : bool :=
  forallb (fun value => negb (existsb illegal_character (slice 0 32767 value))) row.

(** One more row in a sheet the way [append_row_to_template] adds it. *)
Definition add_row `{World} (ws : sheet) (row : list str) : outcome sheet :=
  ws_append (delete_rows0 ws) row.

(** One row after the other, each added to the sheet the one before left. *)
Fixpoint add_rows `{World} (ws : sheet) (rows : list (list str)) : outcome sheet :=
  match rows with
  | [] => Ret ws
  | row :: rest => bind (add_row ws row) (fun ws => add_rows ws rest)
  end.

(** A small world for the closed statements: an inbox with two e-mails, a
    text file and an e-mail with an upper-case suffix, which holds an
    attachment and no text; a path in it that names no file; an outbox with
    an e-mail one part of which has a content type without a content
    manager, and an e-mail for which the pipeline generates the escape of a
    bell character; a pipeline that answers with a single-quoted object; a
    model that loads; files that can be written; a template with three
    headers. [delete_rows(0)] is left as a parameter; the closed
    statements that fix it take the shift of every row one up, which takes
    the first row out of the sheet. *)
Module Demo.

Definition runtime : PyRuntime :=
  {| float_repr := fun x => x;
     str_repr := fun s => [Ch.SQUOTE] ++ s ++ [Ch.SQUOTE] |}.

Definition inbox : Path := [u "inbox"].
Definition jane_eml : Path := [u "inbox"; u "jane.eml"].
Definition john_eml : Path := [u "inbox"; u "john.eml"].
Definition upper_eml : Path := [u "inbox"; u "Readme.EML"].
Definition notes_txt : Path := [u "inbox"; u "notes.txt"].
Definition missing_eml : Path := [u "inbox"; u "missing.eml"].
Definition model_eml : Path := [u "outbox"; u "model.eml"].
Definition bell_eml : Path := [u "outbox"; u "bell.eml"].
Definition template_xlsx : Path := [u "template.xlsx"].
Definition out_xlsx : Path := [u "out.xlsx"].

Definition attachment_only : message :=
  Multipart [ Leaf (u "text/plain") (Ret []);
              Leaf (u "application/pdf") (Ret (u "%PDF-1.4")) ].

Definition body_and_model : message :=
  Multipart [ Leaf (u "text/plain") (Ret (u "Please add Jane Doe."));
              Leaf (u "model/vrml") (Raise KeyError) ].

Definition world (del : sheet → sheet) : World :=
  {| open_eml := fun p =>
       if decide (p = jane_eml)
       then Ret (Leaf (u "text/plain") (Ret (u "Please add Jane Doe.")))
       else if decide (p = john_eml)
       then Ret (Leaf (u "text/plain") (Ret (u "Please add John Roe.")))
       else if decide (p = upper_eml) then Ret attachment_only
       else if decide (p = model_eml) then Ret body_and_model
       else if decide (p = bell_eml)
       then Ret (Leaf (u "text/plain") (Ret (u "Please add Bell.")))
       else Raise OSError;
     soup_get_text := fun s => s;
     load_pipeline := fun _ => Ret tt;
     pipe := fun prompt =>
       if decide (prompt = make_prompt (u "Please add Jane Doe."))
       then Ret (u "Here you go: {'provider_name': 'Jane Doe', 'tin': '123456789'}")
       else if decide (prompt = make_prompt (u "Please add Bell."))
       then Ret (u "{'provider_name': 'Bell\u0007'}")
       else Ret (u "{'provider_name': 'John Roe'}");
     delete_rows0 := del;
     writable := fun _ => true;
     serialize := fun _ => Ret tt;
     is_dir := fun p => bool_decide (p = inbox);
     is_file := fun p =>
       bool_decide (p = jane_eml) || bool_decide (p = john_eml)
       || bool_decide (p = upper_eml) || bool_decide (p = notes_txt)
       || bool_decide (p = template_xlsx);
     scandir := fun p =>
       if decide (p = inbox)
       then [u "john.eml"; u "notes.txt"; u "Readme.EML"; u "jane.eml"]
       else [] |}.

(** The same world on a machine where the model loads on no device. *)
Definition no_model : World :=
  let w := world (drop 1) in
  {| open_eml := @open_eml w;
     soup_get_text := @soup_get_text w;
     load_pipeline := fun d =>
       match d with Auto => Raise RuntimeError | Cpu => Raise OSError end;
     pipe := @pipe w;
     delete_rows0 := @delete_rows0 w;
     writable := @writable w;
     serialize := @serialize w;
     is_dir := @is_dir w;
     is_file := @is_file w;
     scandir := @scandir w |}.

Definition template : sheet :=
  [[CStr (u "Provider Name"); CStr (u "Unknown Col"); CStr (u "TIN")]].

Definition st0 : state :=
  {| files := {[ template_xlsx := template ]}; stdout := [] |}.

(** The text [{"a": 1} and {"b": 2}]. *)
Definition two_objects : str :=
  u "{" ++ [Ch.DQUOTE] ++ u "a" ++ [Ch.DQUOTE] ++ u ": 1} and {"
  ++ [Ch.DQUOTE] ++ u "b" ++ [Ch.DQUOTE] ++ u ": 2}".

Definition jane_row : list str :=
  [u "Jane Doe"; u "Information not found"; u "123456789"].
Definition john_row : list str :=
  [u "John Roe"; u "Information not found"; u "Information not found"].
Definition bell_row : list str :=
  [u "Bell" ++ [7]; u "Information not found"; u "Information not found"].

End Demo.

(* ===================================================================== *)
(** ** Facts about the string methods *)
(* ===================================================================== *)

Section StringFacts.

Lemma find_from_notin (c : char) (s : str) (i : Z) :
  c ∉ s → find_from c s i = (-1)%Z.
Proof.
  revert i. induction s as [|x r IH]; intros i Hc; [done|].
  cbn. destruct (N.eqb_spec x c) as [->|Hne].
  - exfalso. apply Hc. left.
  - apply IH. intros Hr. apply Hc. by right.
Qed.

Lemma find_from_app (c : char) (pre post : str) (i : Z) :
  c ∉ pre → find_from c (pre ++ c :: post) i = (i + len pre)%Z.
Proof.
  revert i. induction pre as [|x r IH]; intros i Hc; cbn.
  - rewrite N.eqb_refl. unfold len. cbn. lia.
  - destruct (N.eqb_spec x c) as [->|Hne].
    + exfalso. apply Hc. left.
    + rewrite IH by (intros Hr; apply Hc; by right).
      unfold len. cbn [length]. lia.
Qed.

(** [find] either misses, and then the character does not occur, or it
    returns the length of the longest prefix free of the character. *)
Lemma find_cases (c : char) (s : str) :
  (find c s = (-1)%Z ∧ c ∉ s)
  ∨ (∃ pre post, s = pre ++ c :: post ∧ (c ∉ pre) ∧ find c s = len pre).
Proof.
  destruct (decide (c ∈ s)) as [Hin|Hout].
  - right. apply list_elem_of_split_l in Hin as (pre & post & -> & Hpre).
    exists pre, post. split_and!; [done|done|].
    unfold find. by rewrite find_from_app.
  - left. split; [|done]. by apply find_from_notin.
Qed.

Lemma find_from_skip (c : char) (pre rest : str) (i : Z) :
  c ∉ pre → find_from c (pre ++ rest) i = find_from c rest (i + len pre).
Proof.
  revert i. induction pre as [|x r IH]; intros i Hc; cbn.
  - f_equal. unfold len. cbn. lia.
  - destruct (N.eqb_spec x c) as [->|Hne].
    + exfalso. apply Hc. left.
    + rewrite IH by (intros Hr; apply Hc; by right).
      f_equal. unfold len. cbn [length]. lia.
Qed.

Lemma find_from_range (c : char) (s : str) (i : Z) :
  find_from c s i = (-1)%Z ∨ (i ≤ find_from c s i)%Z.
Proof.
  revert i. induction s as [|x r IH]; intros i; cbn; [by left|].
  destruct (x =? c); [right; lia|].
  destruct (IH (i + 1)%Z) as [->|?]; [by left|right; lia].
Qed.

Lemma len_nonneg {A} (s : list A) : (0 ≤ len s)%Z.
Proof. unfold len. lia. Qed.

Lemma len_app {A} (s t : list A) : len (s ++ t) = (len s + len t)%Z.
Proof. unfold len. rewrite length_app. lia. Qed.

Lemma len_cons {A} (x : A) (s : list A) : len (x :: s) = (1 + len s)%Z.
Proof. unfold len. cbn [length]. lia. Qed.

(** A slice that starts at the end of [pre] and stops behind [mid]. *)
Lemma slice_middle {A} (pre mid post : list A) :
  slice (len pre) (len pre + len mid) (pre ++ mid ++ post) = mid.
Proof.
  unfold slice, slice_bound. rewrite !len_app.
  pose proof (len_nonneg pre). pose proof (len_nonneg mid).
  pose proof (len_nonneg post).
  replace (len pre <? 0)%Z with false by lia.
  replace (len pre + len mid <? 0)%Z with false by lia.
  replace (Z.min (len pre + (len mid + len post)) (Z.max 0 (len pre)))
    with (len pre) by lia.
  replace (Z.min (len pre + (len mid + len post)) (Z.max 0 (len pre + len mid)))
    with (len pre + len mid)%Z by lia.
  replace (len pre + len mid - len pre)%Z with (len mid) by lia.
  unfold len. rewrite !Nat2Z.id.
  rewrite drop_app_length. by rewrite take_app_length.
Qed.

(** A non-empty slice that starts at the end of [pre] starts with the
    element found there. *)
Lemma slice_head {A} (pre : list A) (x : A) (post : list A) (b : Z) :
  (len pre < b)%Z →
  ∃ rest, slice (len pre) b (pre ++ x :: post) = x :: rest.
Proof.
  intros Hb. unfold slice, slice_bound. rewrite len_app, len_cons.
  pose proof (len_nonneg pre). pose proof (len_nonneg post).
  replace (len pre <? 0)%Z with false by lia.
  replace (b <? 0)%Z with false by lia.
  replace (Z.min (len pre + (1 + len post)) (Z.max 0 (len pre)))
    with (len pre) by lia.
  set (hi := Z.min (len pre + (1 + len post)) (Z.max 0 b)).
  assert (Hhi : (len pre < hi)%Z) by (unfold hi; lia).
  destruct (Z.to_nat (hi - len pre)) as [|k] eqn:Hk; [lia|].
  unfold len. rewrite Nat2Z.id, drop_app_length. cbn. eauto.
Qed.

Lemma replace_cons (old new x : char) (s : str) :
  replace old new (x :: s) = (if x =? old then new else x) :: replace old new s.
Proof. reflexivity. Qed.

Lemma skip_ws_length (s : str) : (length (skip_ws s) ≤ length s)%nat.
Proof.
  induction s as [|c r IH]; cbn; [lia|]. destruct (is_ws c); cbn; lia.
Qed.

Lemma skip_ws_not_ws (c : char) (r : str) :
  is_ws c = false → skip_ws (c :: r) = c :: r.
Proof. intros Hc. cbn. by rewrite Hc. Qed.

End StringFacts.

(* ===================================================================== *)
(** ** Facts about the decoder *)
(* ===================================================================== *)

Section DecoderFacts.

Lemma scanstring_shrinks (s acc v r : str) :
  scanstring s acc = Some (v, r) → (length r < length s)%nat.
Proof.
  remember (length s) as n eqn:Hn. revert s acc Hn.
  induction n as [n IH] using lt_wf_ind. intros s acc -> H.
  destruct s as [|c s]; [done|]. cbn [scanstring] in H.
  repeat case_match; simplify_eq; cbn [length] in *; try lia.
  all: eapply IH in H; [| |reflexivity]; cbn [length] in *; lia.
Qed.

Lemma span_digits_length (s ds r : str) :
  span_digits s = (ds, r) → (length r ≤ length s)%nat.
Proof.
  revert ds r. induction s as [|c s IH]; intros ds r H; cbn in H.
  - by simplify_eq.
  - destruct (is_digit c).
    + destruct (span_digits s) as [ds' r'] eqn:E. simplify_eq.
      specialize (IH _ _ eq_refl). cbn. lia.
    + simplify_eq. done.
Qed.

Lemma match_number_shrinks (s i f e r : str) :
  match_number s = Some (i, f, e, r) → (length r < length s)%nat.
Proof.
  unfold match_number. intros H.
  repeat (case_match; simplify_eq);
    repeat match goal with
    | E : span_digits _ = _ |- _ => apply span_digits_length in E
    end; cbn [length] in *; lia.
Qed.

Local Ltac shrink_step IH :=
  repeat match goal with
  | E : scanstring _ _ = Some _ |- _ => apply scanstring_shrinks in E
  | E : match_number _ = Some _ |- _ => apply match_number_shrinks in E
  | E : scan_once _ _ = Done _ _ |- _ => apply IH in E
  | E : object_loop _ _ _ = Done _ _ |- _ => apply IH in E
  | E : array_loop _ _ _ = Done _ _ |- _ => apply IH in E
  | E : skip_ws ?s = _ |- _ =>
      let H := fresh in pose proof (skip_ws_length s) as H; rewrite E in H; clear E
  | |- context [skip_ws ?s] =>
      lazymatch goal with
      | _ : (length (skip_ws s) ≤ length s)%nat |- _ => fail
      | _ => pose proof (skip_ws_length s)
      end
  | H : context [skip_ws ?s] |- _ =>
      lazymatch goal with
      | _ : (length (skip_ws s) ≤ length s)%nat |- _ => fail
      | _ => pose proof (skip_ws_length s)
      end
  end.

(** A scan that finds a value stops strictly further in the text. *)
Lemma scan_shrinks (fuel : nat) :
  (∀ s v r, scan_once fuel s = Done v r → (length r < length s)%nat)
  ∧ (∀ s p v r, object_loop fuel s p = Done v r → (length r < length s)%nat)
  ∧ (∀ s vs v r, array_loop fuel s vs = Done v r → (length r < length s)%nat).
Proof.
  induction fuel as [|fuel (IHs & IHo & IHa)]; [by split_and!|].
  split_and!.
  - intros s v r H. cbn [scan_once] in H.
    destruct s as [|c s]; [done|].
    repeat (case_match; simplify_eq).
    all: repeat match goal with
         | E : object_loop _ _ _ = Done _ _ |- _ => apply IHo in E
         | E : array_loop _ _ _ = Done _ _ |- _ => apply IHa in E
         end; shrink_step IHs; cbn [length] in *; rewrite ?length_drop; lia.
  - intros s p v r H. cbn [object_loop] in H.
    repeat (case_match; simplify_eq).
    all: repeat match goal with
         | E : object_loop _ _ _ = Done _ _ |- _ => apply IHo in E
         end; shrink_step IHs; cbn [length] in *; lia.
  - intros s vs v r H. cbn [array_loop] in H.
    repeat (case_match; simplify_eq).
    all: repeat match goal with
         | E : array_loop _ _ _ = Done _ _ |- _ => apply IHa in E
         end; shrink_step IHs; cbn [length] in *; lia.
Qed.

Lemma scan_once_shrinks (fuel : nat) (s : str) (v : json) (r : str) :
  scan_once fuel s = Done v r → (length r < length s)%nat.
Proof. apply scan_shrinks. Qed.

(** Fuel above twice the length of the text is never used up. *)
Lemma scan_fuel (fuel : nat) :
  (∀ s, (2 * length s < fuel)%nat → scan_once fuel s ≠ OutOfFuel)
  ∧ (∀ s p, (2 * length s < fuel)%nat → object_loop fuel s p ≠ OutOfFuel)
  ∧ (∀ s vs, (2 * length s + 1 < fuel)%nat → array_loop fuel s vs ≠ OutOfFuel).
Proof.
  induction fuel as [|fuel (IHs & IHo & IHa)]; [split_and!; intros; lia|].
  split_and!.
  - intros s Hlen H. cbn [scan_once] in H.
    destruct s as [|c s]; [done|]. cbn [length] in Hlen.
    repeat (case_match; simplify_eq).
    + eapply IHo; [|done]. shrink_step IHs. cbn [length] in *. lia.
    + eapply IHa; [|done]. shrink_step IHs. cbn [length] in *. lia.
  - intros s p Hlen H. cbn [object_loop] in H.
    repeat (case_match; simplify_eq).
    + eapply IHo; [|done].
      repeat match goal with
      | E : scan_once _ _ = Done _ _ |- _ => apply scan_once_shrinks in E
      end; shrink_step IHs; cbn [length] in *; lia.
    + eapply IHs; [|done]. shrink_step IHs. cbn [length] in *. lia.
  - intros s vs Hlen H. cbn [array_loop] in H.
    repeat (case_match; simplify_eq).
    + eapply IHa; [|done].
      repeat match goal with
      | E : scan_once _ _ = Done _ _ |- _ => apply scan_once_shrinks in E
      end; shrink_step IHs; cbn [length] in *; lia.
    + eapply IHs; [|done]. lia.
Qed.

(** [json.loads] of the model never fails for lack of fuel: it returns a
    value or raises [JSONDecodeError]. *)
Lemma json_loads_total (s : str) :
  (∃ v, json_loads s = Ret v) ∨ json_loads s = Raise JSONDecodeError.
Proof.
  unfold json_loads. destruct (startswith _ s); [by right|].
  destruct (scan_once _ _) as [v rest| |] eqn:E.
  - destruct (skip_ws rest); [left; eauto|by right].
  - by right.
  - exfalso. revert E. apply scan_fuel.
    pose proof (skip_ws_length s). lia.
Qed.

Lemma json_loads_raises_Exception (s : str) (e : exn) :
  json_loads s = Raise e → is_Exception e = true.
Proof.
  destruct (json_loads_total s) as [[v Hv]|Hr]; intros H; rewrite H in *;
    by simplify_eq.
Qed.

Lemma object_loop_dict (fuel : nat) :
  ∀ s p v r, object_loop fuel s p = Done v r → is_dict v = true.
Proof.
  induction fuel as [|fuel IH]; [done|].
  intros s p v r H. cbn [object_loop] in H.
  repeat (case_match; simplify_eq); [done|by eapply IH].
Qed.

(** A text that opens with a brace decodes to a dict or not at all. *)
Lemma json_loads_brace_dict (s : str) (v : json) :
  json_loads (Ch.LBRACE :: s) = Ret v → is_dict v = true.
Proof.
  unfold json_loads. cbn [startswith skip_ws].
  change (65279 =? Ch.LBRACE) with false. change (is_ws Ch.LBRACE) with false.
  cbn [andb]. cbn [scan_once].
  change (Ch.LBRACE =? Ch.DQUOTE) with false.
  change (Ch.LBRACE =? Ch.LBRACE) with true. cbv iota.
  intros H. repeat (case_match; simplify_eq); [done|by eapply object_loop_dict].
Qed.

End DecoderFacts.

(* ===================================================================== *)
(** ** The response interpreter *)
(* ===================================================================== *)

Section Interpreter.

Lemma is_dict_JObj (v : json) : is_dict v = true → ∃ d, v = JObj d.
Proof. destruct v; naive_solver. Qed.

(** On a text that opens with a brace, both the strict parse and the parse
    of the repaired text return a dict or raise, and what they raise is
    caught. *)
Lemma loads_with_repair_dict (rest : str) :
  ∃ d, loads_with_repair (Ch.LBRACE :: rest) = Ret (JObj d).
Proof.
  unfold loads_with_repair.
  destruct (json_loads (Ch.LBRACE :: rest)) as [data|e] eqn:E1;
    cbn [bind try_except].
  - destruct (is_dict data) eqn:Hd; [|by eexists].
    apply is_dict_JObj in Hd as [d ->]. by eexists.
  - rewrite (json_loads_raises_Exception _ _ E1).
    rewrite replace_cons. change (Ch.LBRACE =? Ch.SQUOTE) with false. cbv iota.
    destruct (json_loads (Ch.LBRACE :: replace _ _ rest)) as [v|e'] eqn:E2;
      cbn [bind try_except].
    + apply json_loads_brace_dict, is_dict_JObj in E2 as [d ->]. by eexists.
    + rewrite (json_loads_raises_Exception _ _ E2). by eexists.
Qed.

Lemma parse_generated_text_dict (out : str) :
  ∃ d, parse_generated_text out = Ret (JObj d).
Proof.
  unfold parse_generated_text.
  destruct (_ || _ || _)%Z eqn:Hguard; [by eexists|].
  apply orb_false_iff in Hguard as [Hguard He].
  apply orb_false_iff in Hguard as [Hs _].
  destruct (find_cases Ch.LBRACE out) as [[Hmiss _]|(pre & post & -> & _ & Hfind)].
  { rewrite Hmiss in Hs. done. }
  rewrite Hfind in *.
  destruct (slice_head pre Ch.LBRACE post (find Ch.RBRACE (pre ++ Ch.LBRACE :: post) + 1))
    as [rest ->]; [lia|].
  apply loads_with_repair_dict.
Qed.

(** C3. The response interpreter (lines 102-118 of [extract_with_llm])
    returns for every generated text, it never raises, and what it returns
    is a mapping, possibly empty. This covers the repair path, which
    returns the result of [json.loads(fixed)] with no [isinstance] test:
    [fixed] opens with a brace, so a successful parse of it is a dict.
    Hence [extract_with_llm] returns a mapping whenever the pipeline
    returns a text. *)
Theorem parse_generated_text_returns_mapping :
  (∀ out, ∃ d, parse_generated_text out = Ret (JObj d))
  ∧ (∀ (W : World) email_text out,
       pipe (make_prompt email_text) = Ret out →
       ∃ d, extract_with_llm email_text = Ret (JObj d)).
Proof.
  split.
  - apply parse_generated_text_dict.
  - intros W email_text out Hout. unfold extract_with_llm. rewrite Hout.
    apply parse_generated_text_dict.
Qed.

(** C4. Where the interpreter looks. A text without an opening brace, or
    without a closing brace, or whose first closing brace stands before its
    first opening brace, gives the empty record. Otherwise the text from
    the first opening brace to the first closing brace, both included, is
    what is parsed, whatever follows it: of two objects only the first is
    read. Texts without JSON give the empty record, and an object written
    with single quotes, which the strict parse rejects, is recovered by the
    repair pass. *)
Theorem parse_generated_text_span :
  (∀ out, Ch.LBRACE ∉ out → parse_generated_text out = Ret (JObj []))
  ∧ (∀ out, Ch.RBRACE ∉ out → parse_generated_text out = Ret (JObj []))
  ∧ (∀ pre post, Ch.LBRACE ∉ pre → Ch.RBRACE ∉ pre →
       parse_generated_text (pre ++ Ch.RBRACE :: post) = Ret (JObj []))
  ∧ (∀ pre mid post, Ch.LBRACE ∉ pre → Ch.RBRACE ∉ pre → Ch.RBRACE ∉ mid →
       parse_generated_text (pre ++ Ch.LBRACE :: mid ++ Ch.RBRACE :: post)
       = loads_with_repair (Ch.LBRACE :: mid ++ [Ch.RBRACE]))
  ∧ parse_generated_text (u "no json here") = Ret (JObj [])
  ∧ parse_generated_text [] = Ret (JObj [])
  ∧ json_loads (u "{'a': 1}") = Raise JSONDecodeError
  ∧ parse_generated_text (u "{'a': 1}") = Ret (JObj [(u "a", JInt 1)])
  ∧ parse_generated_text Demo.two_objects = Ret (JObj [(u "a", JInt 1)]).
Proof.
  split_and!.
  - intros out Hout. unfold parse_generated_text, find.
    by rewrite (find_from_notin _ _ _ Hout).
  - intros out Hout. unfold parse_generated_text, find.
    rewrite (find_from_notin Ch.RBRACE _ _ Hout).
    by rewrite orb_true_r.
  - intros pre post Hl Hr. unfold parse_generated_text, find.
    rewrite (find_from_app Ch.RBRACE) by done.
    rewrite (find_from_skip Ch.LBRACE) by done.
    cbn [find_from]. change (Ch.RBRACE =? Ch.LBRACE) with false. cbv iota.
    destruct (find_from_range Ch.LBRACE post (0 + len pre + 1)) as [->|Hge].
    + done.
    + replace (_ || _ || _)%Z with true; [done|].
      symmetry. apply orb_true_iff. right. lia.
  - intros pre mid post Hl Hr Hm. unfold parse_generated_text, find.
    rewrite (find_from_app Ch.LBRACE) by done.
    rewrite (find_from_skip Ch.RBRACE) by done.
    cbn [find_from]. change (Ch.LBRACE =? Ch.RBRACE) with false. cbv iota.
    rewrite (find_from_app Ch.RBRACE) by done.
    pose proof (len_nonneg pre). pose proof (len_nonneg mid).
    replace (_ || _ || _)%Z with false
      by (symmetry; rewrite !orb_false_iff; lia).
    f_equal.
    replace (0 + len pre + 1 + len mid + 1)%Z
      with (len pre + len (Ch.LBRACE :: mid ++ [Ch.RBRACE]))%Z
      by (rewrite len_cons, len_app, len_cons; unfold len; cbn; lia).
    replace (0 + len pre)%Z with (len pre) by lia.
    replace (pre ++ Ch.LBRACE :: mid ++ Ch.RBRACE :: post)
      with (pre ++ (Ch.LBRACE :: mid ++ [Ch.RBRACE]) ++ post)
      by (cbn; by rewrite <- app_assoc).
    apply slice_middle.
  - by vm_compute.
  - by vm_compute.
  - by vm_compute.
  - by vm_compute.
  - by vm_compute.
Qed.

End Interpreter.

(* ===================================================================== *)
(** ** The record normaliser *)
(* ===================================================================== *)

Section Normalizer.
Context `{PyRuntime}.

(** A loop that stores [f k] under every key [k] of a set builds the map
    that is defined exactly on the set. *)
Lemma set_fold_insert_lookup {V} (f : str → V) (X : gset str) (k : str) :
  set_fold (fun k m => <[k := f k]> m) (∅ : gmap str V) X !! k
  = if decide (k ∈ X) then Some (f k) else None.
Proof.
  revert X k.
  apply (set_fold_ind_L
           (fun (m : gmap str V) (X : gset str) =>
              ∀ k, m !! k = if decide (k ∈ X) then Some (f k) else None)).
  - intros k. rewrite lookup_empty.
    rewrite decide_False; [done|]. apply not_elem_of_empty.
  - intros x Y m Hx IH k. destruct (decide (x = k)) as [->|Hne].
    + rewrite lookup_insert_eq. rewrite decide_True; [done|].
      apply elem_of_union_l, elem_of_singleton_2. reflexivity.
    + rewrite lookup_insert_ne by done. rewrite IH.
      destruct (decide (k ∈ Y)) as [Hk|Hk].
      * rewrite decide_True; [done|]. by apply elem_of_union_r.
      * rewrite decide_False; [done|].
        intros [Hx'%elem_of_singleton_1|HY]%elem_of_union; [by subst|done].
Qed.

Lemma normalize_lookup (extracted : json) (k : str) :
  normalize extracted !! k
  = if decide (k ∈ (map_img TEMPLATE_TO_KEY : gset str))
    then Some (final_value (extracted_get extracted k)) else None.
Proof.
  unfold normalize.
  apply (set_fold_insert_lookup (fun k => final_value (extracted_get extracted k))).
Qed.

Lemma normalize_dom (extracted : json) :
  dom (normalize extracted) = map_img TEMPLATE_TO_KEY.
Proof.
  apply set_eq. intros k. rewrite elem_of_dom, normalize_lookup.
  destruct (decide _) as [Hk|Hk]; split.
  - intros _. exact Hk.
  - intros _. eexists. reflexivity.
  - intros [? ?]. discriminate.
  - intros Hk'. contradiction.
Qed.

(** The field names of [TEMPLATE_TO_KEY] are the keys of the prompt's
    schema, and there are 17 of them. *)
Lemma template_keys_schema :
  (map_img TEMPLATE_TO_KEY : gset str) = list_to_set (schema.*1).
Proof. apply (bool_decide_unpack _). by vm_compute. Qed.

Lemma template_keys_size :
  size (map_img TEMPLATE_TO_KEY : gset str) = 17%nat.
Proof. by vm_compute. Qed.

(** C5. Whatever the candidate record is (a dict with missing or unknown
    keys, or no dict at all), the keys of the normalised record are exactly
    the 17 field names: those [TEMPLATE_TO_KEY] maps to, which are the keys
    of the prompt's schema. *)
Theorem normalize_keys (extracted : json) :
  dom (normalize extracted) = map_img TEMPLATE_TO_KEY
  ∧ dom (normalize extracted) = list_to_set (schema.*1)
  ∧ size (dom (normalize extracted)) = 17%nat
  ∧ (∀ k, k ∈ dom (normalize extracted) ↔ k ∈ schema.*1).
Proof.
  pose proof (normalize_dom extracted) as Hdom.
  split_and!.
  - exact Hdom.
  - rewrite Hdom. apply template_keys_schema.
  - rewrite Hdom. apply template_keys_size.
  - intros k. rewrite Hdom, template_keys_schema. apply elem_of_list_to_set.
Qed.

Lemma dict_lookup_items (l : list (list N * list N)) (k : str) :
  dict_lookup k (map (fun kv => (kv.1, JStr kv.2)) l)
  = JStr <$> (list_to_map l : gmap str str) !! k.
Proof.
  induction l as [|[k' v] l IH]; cbn [map dict_lookup list_to_map foldr fst snd].
  - by rewrite lookup_empty.
  - destruct (decide (k' = k)) as [->|Hne].
    + by rewrite lookup_insert_eq.
    + by rewrite lookup_insert_ne.
Qed.

Lemma extracted_get_record (r : gmap str str) (k : str) :
  extracted_get (record_as_json r) k = default JNull (JStr <$> r !! k).
Proof.
  unfold extracted_get, record_as_json.
  by rewrite dict_lookup_items, list_to_map_to_list.
Qed.

Lemma final_value_sentinel : final_value (JStr sentinel) = sentinel.
Proof. by vm_compute. Qed.

(** C8. A record that has the schema's keys and holds the sentinel under
    each of them is a fixed point of the normalisation: read as a candidate
    record and normalised, it comes back unchanged. *)
Theorem normalize_sentinel_record (r : gmap str str) :
  dom r = map_img TEMPLATE_TO_KEY →
  (∀ k v, r !! k = Some v → v = sentinel) →
  normalize (record_as_json r) = r.
Proof.
  intros Hdom Hall. apply map_eq. intros k.
  rewrite normalize_lookup, extracted_get_record.
  destruct (decide _) as [Hk|Hk].
  - rewrite <- Hdom in Hk. apply elem_of_dom in Hk as [v Hv].
    rewrite Hv. change (default JNull (JStr <$> Some v)) with (JStr v).
    rewrite (Hall _ _ Hv). by rewrite final_value_sentinel.
  - rewrite <- Hdom in Hk. apply not_elem_of_dom in Hk. by rewrite Hk.
Qed.

(** C2. An empty list under a field name is stored as the empty string:
    [", ".join] of nothing. The generated text below reaches this case
    through the interpreter. *)
Theorem normalize_empty_list :
  parse_generated_text (u "{" ++ [Ch.DQUOTE] ++ u "ppg_id" ++ [Ch.DQUOTE] ++ u ": []}")
  = Ret (JObj [(u "ppg_id", JArr [])])
  ∧ normalize (JObj [(u "ppg_id", JArr [])]) !! u "ppg_id" = Some []
  ∧ build_row (normalize (JObj [(u "ppg_id", JArr [])]))
      (keys_in_order [CStr (u "PPG ID")]) = [[]].
Proof. split_and!; by vm_compute. Qed.

End Normalizer.

(** The record that holds the sentinel under every field name is such a
    fixed point. *)
Lemma normalize_sentinel_record_witness :
  dom sentinel_record = map_img TEMPLATE_TO_KEY
  ∧ @normalize Demo.runtime (record_as_json sentinel_record) = sentinel_record.
Proof.
  assert (Hdom : dom sentinel_record = map_img TEMPLATE_TO_KEY)
    by apply dom_gset_to_gmap.
  split; [exact Hdom|].
  apply (@normalize_sentinel_record Demo.runtime sentinel_record Hdom).
  intros k v Hv. apply lookup_gset_to_gmap_Some in Hv as [_ <-]. reflexivity.
Defined.

(* ===================================================================== *)
(** ** The row mapper *)
(* ===================================================================== *)

Section RowMapper.

Lemma build_row_from (final : gmap str str) (keys : list (option str))
    (row : list str) :
  fold_left
    (fun row key =>
       match key with
       | None => row ++ [sentinel]
       | Some k => row ++ [default sentinel (final !! k)]
       end)
    keys row
  = row ++ map (row_cell final) keys.
Proof.
  revert row. induction keys as [|key keys IH]; intros row; cbn [fold_left map].
  - by rewrite app_nil_r.
  - rewrite IH. destruct key; cbn [row_cell]; by rewrite <- app_assoc.
Qed.

Lemma build_row_map (final : gmap str str) (keys : list (option str)) :
  build_row final keys = map (row_cell final) keys.
Proof. unfold build_row. by rewrite build_row_from. Qed.

(** C6. The row has one cell per header, in the order of the headers: the
    cell under a header that [TEMPLATE_TO_KEY] knows holds the record's
    value for its field, the cell under any other header holds the
    sentinel. The last part is the example of the specification. *)
Theorem build_row_aligned (final : gmap str str) (headers : list cell) :
  length (build_row final (keys_in_order headers)) = length headers
  ∧ (∀ (i : nat) s k,
       headers !! i = Some (CStr s) → TEMPLATE_TO_KEY !! s = Some k →
       build_row final (keys_in_order headers) !! i
       = Some (default sentinel (final !! k)))
  ∧ (∀ (i : nat) h,
       headers !! i = Some h → (∀ s, h = CStr s → TEMPLATE_TO_KEY !! s = None) →
       build_row final (keys_in_order headers) !! i = Some sentinel)
  ∧ (final !! u "provider_name" = Some (u "Jane Doe") →
     final !! u "tin" = Some (u "123456789") →
     build_row final
       (keys_in_order [CStr (u "Provider Name"); CStr (u "Unknown Col"); CStr (u "TIN")])
     = [u "Jane Doe"; u "Information not found"; u "123456789"]).
Proof.
  rewrite build_row_map. unfold keys_in_order. split_and!.
  - by rewrite !length_map.
  - intros i s k Hi Hk.
    rewrite !list_lookup_fmap, Hi.
    change (Some (row_cell final (TEMPLATE_TO_KEY !! s))
            = Some (default sentinel (final !! k))).
    by rewrite Hk.
  - intros i h Hi Hh.
    rewrite !list_lookup_fmap, Hi.
    destruct h as [|s| | |]; try reflexivity.
    change (Some (row_cell final (TEMPLATE_TO_KEY !! s)) = Some sentinel).
    by rewrite (Hh s eq_refl).
  - intros Hname Htin. rewrite build_row_map. cbn [map].
    change (TEMPLATE_TO_KEY !! u "Provider Name") with (Some (u "provider_name")).
    change (TEMPLATE_TO_KEY !! u "Unknown Col") with (@None (list N)).
    change (TEMPLATE_TO_KEY !! u "TIN") with (Some (u "tin")).
    cbn [row_cell]. by rewrite Hname, Htin.
Qed.

End RowMapper.

(* ===================================================================== *)
(** ** The prompt builder *)
(* ===================================================================== *)

Section PromptBuilder.

(** The serialised schema is valid JSON and reads back as the schema. *)
Lemma schema_text_roundtrip :
  json_loads (json_dumps_indent2 schema)
  = Ret (JObj (map (fun kv => (kv.1, JStr kv.2)) schema)).
Proof. by vm_compute. Qed.

(** C9. [make_prompt] is a function of the e-mail text alone, so equal
    texts give equal prompts. The prompt holds the whole text, unchanged
    and between two triple quotes: its length is that of the text plus a
    constant. It also holds the sentinel and the serialised schema. *)
Theorem make_prompt_contains (email_text : str) :
  (∀ other, other = email_text → make_prompt other = make_prompt email_text)
  ∧ (∃ pre post,
       make_prompt email_text
       = pre ++ [Ch.DQUOTE; Ch.DQUOTE; Ch.DQUOTE] ++ email_text
             ++ [Ch.DQUOTE; Ch.DQUOTE; Ch.DQUOTE] ++ post)
  ∧ length (make_prompt email_text) = (length email_text + length (make_prompt []))%nat
  ∧ (∃ pre post, make_prompt email_text = pre ++ sentinel ++ post)
  ∧ (∃ pre post, make_prompt email_text = pre ++ json_dumps_indent2 schema ++ post).
Proof.
  split_and!.
  - by intros other ->.
  - exists (prompt_head ++ json_dumps_indent2 schema ++ [Ch.LF; Ch.LF] ++ u "Email:" ++ [Ch.LF]).
    exists ([Ch.LF; Ch.LF]
            ++ u "IMPORTANT: Return only valid JSON (a single JSON object) and nothing else."
            ++ [Ch.LF]).
    unfold make_prompt, prompt_middle, prompt_tail.
    rewrite <- !app_assoc. reflexivity.
  - unfold make_prompt. rewrite !length_app. cbn [length]. lia.
  - exists ([Ch.LF]
            ++ u "You are a STRUCTURED-EXTRACTION model. Extract values from the EMAIL below and RETURN STRICT JSON ONLY (no commentary)."
            ++ [Ch.LF]
            ++ u "If a value cannot be found, set it exactly to " ++ [Ch.DQUOTE]).
    eexists.
    unfold make_prompt, prompt_head, sentinel.
    rewrite <- !app_assoc. reflexivity.
  - exists prompt_head. eexists. unfold make_prompt. reflexivity.
Qed.

End PromptBuilder.

(* ===================================================================== *)
(** ** The batch orchestrator *)
(* ===================================================================== *)

Section Orchestrator.
Context `{PyRuntime} `{World}.

Lemma process_loop_app (keys : list (option str)) (tp op : Path)
    (a b : list Path) (st : state) :
  process_loop keys tp op (a ++ b) st
  = match process_loop keys tp op a st with
    | (Ret _, st') => process_loop keys tp op b st'
    | (Raise e, st') => (Raise e, st')
    end.
Proof.
  revert st. induction a as [|p a IH]; intros st; [done|].
  cbn [app process_loop]. unfold mbind'.
  destruct (process_one keys tp op p st) as [[[]|e] st']; [apply IH|done].
Qed.

(** An e-mail that cannot be read ends the loop there, in the state the
    loop had reached. *)
Lemma process_loop_unreadable (keys : list (option str)) (tp op : Path)
    (p : Path) (post : list Path) (e : exn) (st : state) :
  load_eml_text p = Raise e →
  process_loop keys tp op (p :: post) st = (Raise e, st).
Proof.
  intros Hp. cbn [process_loop]. unfold process_one, mbind', lift.
  by rewrite Hp.
Qed.

(** C7, as the code has it. [process_eml_files] has no handler around the
    body of its loop: when [load_eml_text] raises for an e-mail, the
    exception leaves [process_eml_files] at that e-mail. The state is the
    one the e-mails before it produced, and no later e-mail is processed. *)
Theorem process_eml_files_aborts (pre post : list Path)
    (p tp op : Path) (e : exn) (st st1 : state) :
  process_eml_files pre tp op st = (Ret tt, st1) →
  load_eml_text p = Raise e →
  process_eml_files (pre ++ p :: post) tp op st = (Raise e, st1).
Proof.
  unfold process_eml_files, mbind'. intros Hpre Hp.
  destruct (load_workbook tp st) as [[ws|e0] st'] eqn:Hload; [|done].
  destruct (save op ws st') as [[[]|e1] st''] eqn:Hsave; [|done].
  rewrite process_loop_app, Hpre.
  by apply process_loop_unreadable.
Qed.

End Orchestrator.

(** C7 is not what the code does: with an unreadable first e-mail the run
    raises, nothing is reported as processed, and the readable second
    e-mail leaves no row in the output, which still is the copy of the
    template. *)
Lemma process_eml_files_no_skip :
  let run :=
    @process_eml_files Demo.runtime (Demo.world (drop 1))
      [Demo.missing_eml; Demo.jane_eml] Demo.template_xlsx Demo.out_xlsx Demo.st0 in
  run.1 = Raise OSError
  ∧ stdout run.2 = []
  ∧ files run.2 !! Demo.out_xlsx = Some Demo.template.
Proof. intros run. split; [|split]; vm_compute; reflexivity. Qed.

(** A run on a readable e-mail, a path that names no file and another
    readable e-mail: it raises at the second, with the first one's row
    written and reported, and the third never read. *)
Lemma process_eml_files_aborts_witness :
  @process_eml_files Demo.runtime (Demo.world (drop 1))
    ([Demo.jane_eml] ++ Demo.missing_eml :: [Demo.john_eml])
    Demo.template_xlsx Demo.out_xlsx Demo.st0
  = (Raise OSError,
     {| files := {[ Demo.template_xlsx := Demo.template;
                    Demo.out_xlsx := [CStr <$> Demo.jane_row] ]};
        stdout := [Demo.jane_eml] |}).
Proof.
  apply (@process_eml_files_aborts Demo.runtime (Demo.world (drop 1))
           [Demo.jane_eml] [Demo.john_eml] Demo.missing_eml).
  - by vm_compute.
  - by vm_compute.
Defined.

Section OutputSink.
Context `{PyRuntime} `{World}.

(** What one call of [append_row_to_template] leaves in the output file is
    made from the template file and the row alone: the workbook is loaded
    from [template_path], not from [out_path]. *)
Lemma append_row_to_template_from_template (tp op : Path)
    (row : list str) (st st' : state) (t : sheet) :
  files st !! tp = Some t →
  append_row_to_template tp op row st = (Ret tt, st') →
  ∃ ws, add_row t row = Ret ws
        ∧ st' = {| files := <[op := ws]> (files st); stdout := stdout st |}.
Proof.
  intros Ht. unfold append_row_to_template, mbind', load_workbook, lift, add_row.
  rewrite Ht.
  destruct (ws_append (delete_rows0 t) row) as [ws|e]; [|done].
  unfold save. destruct (negb (writable op)); [done|].
  destruct (serialize ws); [|done].
  intros [= <-]. eauto.
Qed.

Lemma process_one_files (keys : list (option str)) (tp op p : Path)
    (st st' : state) (t : sheet) :
  files st !! tp = Some t →
  process_one keys tp op p st = (Ret tt, st') →
  ∃ row ws, row_of keys p = Ret row
            ∧ add_row t row = Ret ws
            ∧ files st' = <[op := ws]> (files st).
Proof.
  intros Ht. unfold process_one, row_of, mbind', lift.
  destruct (load_eml_text p) as [text|e]; [|done]. cbn [bind].
  destruct (extract_with_llm text) as [extracted|e]; [|done]. cbn [bind].
  destruct (append_row_to_template _ _ _ _) as [[[]|e] st1] eqn:Happ; [|done].
  destruct (append_row_to_template_from_template _ _ _ _ _ _ Ht Happ)
    as (ws & Hws & ->).
  unfold print_processed. intros [= <-]. eauto.
Qed.

Lemma process_loop_template_kept (keys : list (option str)) (tp op : Path)
    (paths : list Path) (st st' : state) (t : sheet) :
  tp ≠ op →
  files st !! tp = Some t →
  process_loop keys tp op paths st = (Ret tt, st') →
  files st' !! tp = Some t.
Proof.
  intros Hne. revert st. induction paths as [|p paths IH]; intros st Ht; cbn [process_loop].
  - by intros [= <-].
  - unfold mbind'.
    destruct (process_one keys tp op p st) as [[[]|e] st1] eqn:Hone; [|done].
    apply IH.
    destruct (process_one_files _ _ _ _ _ _ _ Ht Hone) as (row & ws & _ & _ & ->).
    by rewrite lookup_insert_ne.
Qed.

(** When the output is not the template file itself, a loop that returns
    leaves in the output file the row of its last e-mail and no other: the
    sheet is what [delete_rows(0)] makes of the template, plus that row. *)
Lemma process_loop_last_row (keys : list (option str)) (tp op p : Path)
    (paths : list Path) (st st' : state) (t : sheet) :
  tp ≠ op →
  files st !! tp = Some t →
  process_loop keys tp op (paths ++ [p]) st = (Ret tt, st') →
  ∃ row ws, row_of keys p = Ret row
            ∧ add_row t row = Ret ws
            ∧ files st' !! op = Some ws.
Proof.
  intros Hne Ht. rewrite process_loop_app.
  destruct (process_loop keys tp op paths st) as [[[]|e] st1] eqn:Hpre; [|done].
  pose proof (process_loop_template_kept _ _ _ _ _ _ _ Hne Ht Hpre) as Ht1.
  cbn [process_loop]. unfold mbind'.
  destruct (process_one keys tp op p st1) as [[[]|e] st2] eqn:Hone; [|done].
  intros [= <-].
  destruct (process_one_files _ _ _ _ _ _ _ Ht1 Hone) as (row & ws & Hrow & Hws & ->).
  exists row, ws. split; [done|]. split; [done|]. by rewrite lookup_insert_eq.
Qed.

(** X20. With a batch size of zero or less, [main] collects the e-mails
    and loads the model, and ends there with nothing processed and nothing
    written: it raises what [get_llm_pipe] raises; once the model is
    loaded, a batch size of zero makes [range] raise [ValueError], and a
    negative one gives no batch at all, so that [main] returns. *)
Lemma main_nonpositive_batch (eml_input tp op : Path) (batch : Z)
    (eml_paths : list Path) (st : state) :
  collect_eml_paths eml_input = Ret eml_paths →
  (batch ≤ 0)%Z →
  main eml_input tp op batch st
  = (bind get_llm_pipe (fun _ =>
       if (batch =? 0)%Z then Raise ValueError else Ret tt), st).
Proof.
  intros Hc Hb. unfold main, mbind', lift, range0. rewrite Hc.
  destruct get_llm_pipe as [[]|e]; [|done]. cbn [bind].
  destruct (batch =? 0)%Z eqn:Hz; [done|].
  replace (0 <? batch)%Z with false by lia.
  replace (len eml_paths <? 0)%Z with false
    by (symmetry; apply Z.ltb_ge, len_nonneg).
  reflexivity.
Qed.

End OutputSink.

(** C1 fails on the code. Two e-mails are processed, both are reported, and
    the output file ends with the row of the second one only, behind
    whatever [delete_rows(0)] makes of the template: the file is the same
    as after a run on the second e-mail alone. *)
Theorem process_eml_files_keeps_last_row_only (del : sheet → sheet) :
  let run2 :=
    @process_eml_files Demo.runtime (Demo.world del)
      [Demo.jane_eml; Demo.john_eml] Demo.template_xlsx Demo.out_xlsx Demo.st0 in
  let run1 :=
    @process_eml_files Demo.runtime (Demo.world del)
      [Demo.john_eml] Demo.template_xlsx Demo.out_xlsx Demo.st0 in
  run2.1 = Ret tt
  ∧ stdout run2.2 = [Demo.jane_eml; Demo.john_eml]
  ∧ files run2.2 !! Demo.out_xlsx
    = Some (del Demo.template ++ [CStr <$> Demo.john_row])
  ∧ ws_append (del Demo.template) Demo.john_row
    = Ret (del Demo.template ++ [CStr <$> Demo.john_row])
  ∧ files run2.2 = files run1.2.
Proof.
  intros run2 run1. split; [|split; [|split; [|split]]]; vm_compute; reflexivity.
Qed.

(* ===================================================================== *)
(** ** The order of the e-mails *)
(* ===================================================================== *)

Section PathOrder.

Lemma good_compare_list {A} (cmp : A → A → comparison) :
  good_compare cmp → good_compare (list_compare cmp).
Proof.
  intros (Heq & Hopp & Htrans). split_and!.
  - intros x y. by apply list_compare_refl.
  - intros x y. by apply list_compare_antisym.
  - intros x y z c. by apply list_compare_trans.
Qed.

Lemma good_compare_N : good_compare N.compare.
Proof.
  split_and!.
  - apply N.compare_eq_iff.
  - intros x y. apply N.compare_antisym.
  - intros x y z [] Hxy Hyz.
    + apply N.compare_eq_iff in Hxy, Hyz. subst. apply N.compare_refl.
    + rewrite N.compare_lt_iff in *. lia.
    + rewrite N.compare_gt_iff in *. lia.
Qed.

Lemma good_compare_path : good_compare path_compare.
Proof. apply good_compare_list, good_compare_list, good_compare_N. Qed.

Lemma path_le_compare (a b : Path) :
  path_le a b ↔ path_compare a b ≠ Gt.
Proof.
  destruct good_compare_path as (_ & Hopp & _).
  unfold path_le, path_lt. rewrite (Hopp a b).
  destruct (path_compare a b); cbn; naive_solver.
Qed.

Lemma path_lt_le (a b : Path) : path_lt a b = true → path_le a b.
Proof.
  destruct good_compare_path as (_ & Hopp & _).
  unfold path_le, path_lt. rewrite (Hopp a b).
  destruct (path_compare a b); cbn; naive_solver.
Qed.

#[local] Instance path_le_trans : Transitive path_le.
Proof.
  destruct good_compare_path as (Heq & Hopp & Htrans).
  intros a b c. rewrite !path_le_compare. intros Hab Hbc.
  destruct (path_compare a b) eqn:Eab; [| |done].
  - apply Heq in Eab. by subst.
  - destruct (path_compare b c) eqn:Ebc; [| |done].
    + apply Heq in Ebc. subst. by rewrite Eab.
    + by rewrite (Htrans a b c Lt Eab Ebc).
Qed.

#[local] Instance path_le_antisym : AntiSymm (=) path_le.
Proof.
  destruct good_compare_path as (Heq & Hopp & _).
  intros a b. rewrite !path_le_compare. intros Hab Hba.
  apply Heq. rewrite (Hopp a b) in Hba.
  destruct (path_compare a b); cbn in *; done.
Qed.

Lemma insert_sorted_Permutation (x : Path) (l : list Path) :
  insert_sorted x l ≡ₚ x :: l.
Proof.
  induction l as [|y l IH]; cbn; [done|].
  destruct (path_lt y x); [|done].
  rewrite IH. apply Permutation_swap.
Qed.

Lemma insert_sorted_HdRel (x y : Path) (l : list Path) :
  path_le y x → HdRel path_le y l → HdRel path_le y (insert_sorted x l).
Proof.
  intros Hyx Hl. destruct l as [|z l]; cbn.
  - by constructor.
  - inversion_clear Hl. destruct (path_lt z x); by constructor.
Qed.

Lemma insert_sorted_Sorted (x : Path) (l : list Path) :
  Sorted path_le l → Sorted path_le (insert_sorted x l).
Proof.
  induction 1 as [|y l Hl IH Hhd]; cbn.
  - by repeat constructor.
  - destruct (path_lt y x) eqn:Hyx.
    + constructor; [done|]. apply insert_sorted_HdRel; [|done].
      by apply path_lt_le.
    + constructor; [by constructor|]. by constructor.
Qed.

Lemma sorted_Sorted (l : list Path) : Sorted path_le (sorted l).
Proof.
  induction l as [|x l IH]; cbn; [constructor|]. by apply insert_sorted_Sorted.
Qed.

Lemma sorted_Permutation (l : list Path) : sorted l ≡ₚ l.
Proof.
  induction l as [|x l IH]; cbn; [done|].
  by rewrite insert_sorted_Permutation, IH.
Qed.

(** The result of [sorted] depends on the elements only, not on the order
    they come in. *)
Lemma sorted_order_irrelevant (l l' : list Path) :
  l ≡ₚ l' → sorted l = sorted l'.
Proof.
  intros Hl. apply (Sorted_unique path_le); try apply sorted_Sorted.
  by rewrite !sorted_Permutation.
Qed.

End PathOrder.

(* ===================================================================== *)
(** ** Batches and the order of processing *)
(* ===================================================================== *)

Section Batches.

Lemma slice_take_drop {A} (a b : nat) (l : list A) :
  slice (Z.of_nat a) (Z.of_nat a + Z.of_nat b) l = take b (drop a l).
Proof.
  unfold slice, slice_bound, len.
  replace (Z.of_nat a <? 0)%Z with false by (symmetry; apply Z.ltb_ge; lia).
  replace (Z.of_nat a + Z.of_nat b <? 0)%Z with false
    by (symmetry; apply Z.ltb_ge; lia).
  destruct (decide (a ≤ length l)%nat) as [Ha|Ha].
  - replace (Z.to_nat (Z.min (Z.of_nat (length l)) (Z.max 0 (Z.of_nat a)))) with a by lia.
    destruct (decide (a + b ≤ length l)%nat) as [Hb|Hb].
    + f_equal. lia.
    + rewrite !take_ge; [done| |]; rewrite length_drop; lia.
  - rewrite !drop_ge by lia. by rewrite !take_nil.
Qed.

Lemma chunks_concat {A} (b cnt : nat) (l : list A) :
  concat (map (fun k => take b (drop (k * b) l)) (seq 0 cnt)) = take (cnt * b) l.
Proof.
  revert l. induction cnt as [|cnt IH]; intros l; [done|].
  cbn [seq map concat]. rewrite <- seq_shift, map_map.
  rewrite (map_ext _ (fun k => take b (drop (k * b) (drop b l)))).
  - rewrite IH. cbn [Nat.mul].
    change (drop 0 l) with l. apply take_take_drop.
  - intros k. rewrite drop_drop. reflexivity.
Qed.

(** The batches that [main] cuts with a positive batch size are
    consecutive pieces of the list and make it up, in order. *)
Lemma batches_cover {A} (batch : Z) (l : list A) (starts : list Z) :
  (0 < batch)%Z →
  range0 (len l) batch = Ret starts →
  concat (map (fun i => slice i (i + batch) l) starts) = l.
Proof.
  intros Hb. unfold range0.
  replace (batch =? 0)%Z with false by lia.
  replace (0 <? batch)%Z with true by lia.
  intros [= <-]. rewrite map_map.
  set (b := Z.to_nat batch).
  rewrite (map_ext _ (fun k => take b (drop (k * b) l))).
  - rewrite chunks_concat. apply take_ge. unfold len.
    destruct (0 <? Z.of_nat (length l))%Z eqn:Hn; [|lia].
    assert (Z.of_nat (length l) ≤ (Z.of_nat (length l) + batch - 1) / batch * batch)%Z.
    { pose proof (Z.div_mod (Z.of_nat (length l) + batch - 1) batch ltac:(lia)).
      pose proof (Z.mod_pos_bound (Z.of_nat (length l) + batch - 1) batch Hb). lia. }
    assert (0 ≤ (Z.of_nat (length l) + batch - 1) / batch)%Z
      by (apply Z.div_pos; lia).
    unfold b. nia.
  - intros k. replace batch with (Z.of_nat b) by (unfold b; lia).
    rewrite <- Nat2Z.inj_mul. apply slice_take_drop.
Qed.

Context `{PyRuntime} `{World}.

Lemma process_one_stdout (keys : list (option str)) (tp op p : Path)
    (st st' : state) :
  process_one keys tp op p st = (Ret tt, st') → stdout st' = stdout st ++ [p].
Proof.
  unfold process_one, mbind', lift, append_row_to_template, mbind',
    load_workbook, lift, save, print_processed.
  intros Hrun. repeat (case_match; simplify_eq). done.
Qed.

Lemma process_loop_stdout (keys : list (option str)) (tp op : Path)
    (paths : list Path) (st st' : state) :
  process_loop keys tp op paths st = (Ret tt, st') → stdout st' = stdout st ++ paths.
Proof.
  revert st. induction paths as [|p paths IH]; intros st; cbn [process_loop].
  - intros [= <-]. by rewrite app_nil_r.
  - unfold mbind'.
    destruct (process_one keys tp op p st) as [[[]|e] st1] eqn:Hone; [|done].
    intros Hrest. rewrite (IH _ Hrest), (process_one_stdout _ _ _ _ _ _ Hone).
    by rewrite <- app_assoc.
Qed.

(** A call of [process_eml_files] that returns has reported its e-mails
    in the order of its argument. *)
Lemma process_eml_files_stdout (paths : list Path) (tp op : Path)
    (st st' : state) :
  process_eml_files paths tp op st = (Ret tt, st') → stdout st' = stdout st ++ paths.
Proof.
  unfold process_eml_files, mbind', load_workbook, save.
  destruct (files st !! tp) as [t|]; [|done].
  destruct (negb (writable op)); [done|].
  destruct (serialize t); [|done].
  intros Hloop. by rewrite (process_loop_stdout _ _ _ _ _ _ Hloop).
Qed.

Lemma run_batches_stdout (starts : list Z) (batch : Z) (paths : list Path)
    (tp op : Path) (st st' : state) :
  run_batches starts batch paths tp op st = (Ret tt, st') →
  stdout st' = stdout st ++ concat (map (fun i => slice i (i + batch) paths) starts).
Proof.
  revert st. induction starts as [|i starts IH]; intros st; cbn [run_batches map concat].
  - intros [= <-]. by rewrite app_nil_r.
  - unfold mbind'.
    destruct (process_eml_files _ tp op st) as [[[]|e] st1] eqn:Hone; [|done].
    intros Hrest. rewrite (IH _ Hrest), (process_eml_files_stdout _ _ _ _ _ Hone).
    by rewrite <- app_assoc.
Qed.

(** With a positive batch size, a run of [main] that returns has processed
    the collected e-mails one by one in the order of the collected list,
    however they were cut into batches. *)
Lemma main_stdout (eml_input tp op : Path) (batch : Z) (st st' : state) :
  (0 < batch)%Z →
  main eml_input tp op batch st = (Ret tt, st') →
  ∃ eml_paths,
    collect_eml_paths eml_input = Ret eml_paths
    ∧ stdout st' = stdout st ++ eml_paths.
Proof.
  intros Hb. unfold main, mbind', lift.
  destruct (collect_eml_paths eml_input) as [eml_paths|e] eqn:Hc; [|done].
  destruct get_llm_pipe as [[]|e]; [|done].
  destruct (range0 (len eml_paths) batch) as [starts|e] eqn:Hr; [|done].
  intros Hrun. exists eml_paths. split; [done|].
  rewrite (run_batches_stdout _ _ _ _ _ _ _ Hrun).
  by rewrite (batches_cover _ _ _ Hb Hr).
Qed.

End Batches.

Section Collect.
Context `{PyRuntime} `{World}.

Lemma collect_eml_paths_dir (eml_input : Path) (eml_paths : list Path) :
  is_dir eml_input = true →
  collect_eml_paths eml_input = Ret eml_paths →
  eml_paths = sorted (glob_eml eml_input).
Proof.
  unfold collect_eml_paths. intros ->. cbn [bind].
  destruct (sorted (glob_eml eml_input)); naive_solver.
Qed.

Lemma collect_eml_paths_file (eml_input : Path) (eml_paths : list Path) :
  is_dir eml_input = false →
  collect_eml_paths eml_input = Ret eml_paths →
  eml_paths = [eml_input]
  ∧ is_file eml_input = true
  ∧ lower (suffix eml_input) = u ".eml".
Proof.
  unfold collect_eml_paths. intros ->.
  destruct (is_file eml_input); cbn [andb bind]; [|done].
  destruct (bool_decide _) eqn:Hsuf; cbn [bind]; [|done].
  apply bool_decide_eq_true in Hsuf. naive_solver.
Qed.

(** X24. When the input is a directory, the e-mails to process are the
    entries that match [*.eml], each once, in ascending order of their
    paths; any other order of the directory listing gives the same list.
    An input that is not a directory is accepted only if it is a file whose
    suffix, lower-cased, is [.eml]. With a positive batch size, a run of
    [main] that returns has processed the e-mails in the order of that
    list. *)
Theorem main_processes_sorted_eml_paths (eml_input : Path)
    (eml_paths : list Path) :
  collect_eml_paths eml_input = Ret eml_paths →
  (is_dir eml_input = true →
     Sorted path_le eml_paths
     ∧ eml_paths ≡ₚ glob_eml eml_input
     ∧ (∀ listing, listing ≡ₚ scandir eml_input →
          eml_paths
          = sorted (map (fun n => eml_input ++ [n])
                      (filter (fun n => fnmatch_eml n = true) listing))))
  ∧ (is_dir eml_input = false →
     eml_paths = [eml_input]
     ∧ is_file eml_input = true
     ∧ lower (suffix eml_input) = u ".eml")
  ∧ (∀ tp op batch st st',
       (0 < batch)%Z →
       main eml_input tp op batch st = (Ret tt, st') →
       stdout st' = stdout st ++ eml_paths).
Proof.
  intros Hret. split_and!.
  - intros Hdir. rewrite (collect_eml_paths_dir _ _ Hdir Hret). split_and!.
    + apply sorted_Sorted.
    + apply sorted_Permutation.
    + intros listing Hperm. apply sorted_order_irrelevant.
      unfold glob_eml. by rewrite Hperm.
  - intros Hdir. by apply collect_eml_paths_file.
  - intros tp op batch st st' Hb Hrun.
    destruct (main_stdout _ _ _ _ _ _ Hb Hrun) as (paths & Hpaths & ->).
    rewrite Hret in Hpaths. by simplify_eq.
Qed.

End Collect.

(** The inbox lists [john.eml] before [jane.eml]; they are collected and
    processed the other way round. [Readme.EML] is not matched inside the
    directory, since the pattern is matched with case, but is accepted when
    given as the input file; [notes.txt] is refused. *)
Lemma main_processes_sorted_eml_paths_witness :
  @collect_eml_paths (Demo.world (drop 1)) Demo.inbox
  = Ret [Demo.jane_eml; Demo.john_eml]
  ∧ Sorted path_le [Demo.jane_eml; Demo.john_eml]
  ∧ stdout
      (@main Demo.runtime (Demo.world (drop 1))
         Demo.inbox Demo.template_xlsx Demo.out_xlsx 1 Demo.st0).2
    = [Demo.jane_eml; Demo.john_eml]
  ∧ @collect_eml_paths (Demo.world (drop 1)) Demo.upper_eml
    = Ret [Demo.upper_eml]
  ∧ @collect_eml_paths (Demo.world (drop 1)) Demo.notes_txt
    = Raise SystemExit.
Proof.
  assert (Hret : @collect_eml_paths (Demo.world (drop 1)) Demo.inbox
                 = Ret [Demo.jane_eml; Demo.john_eml])
    by (vm_compute; reflexivity).
  pose proof (@main_processes_sorted_eml_paths Demo.runtime
                (Demo.world (drop 1)) _ _ Hret) as (Hdir & _ & Hmain).
  split; [exact Hret|]. split; [|split; [|split]].
  - apply Hdir. vm_compute; reflexivity.
  - destruct (@main Demo.runtime (Demo.world (drop 1))
                Demo.inbox Demo.template_xlsx Demo.out_xlsx 1 Demo.st0)
      as [o st'] eqn:Hrun.
    assert (Ho : o = Ret tt).
    { change o with (o, st').1. rewrite <- Hrun. vm_compute; reflexivity. }
    subst o.
    apply (Hmain Demo.template_xlsx Demo.out_xlsx 1%Z Demo.st0 st');
      [reflexivity|exact Hrun].
  - vm_compute; reflexivity.
  - vm_compute; reflexivity.
Defined.


(* ===================================================================== *)
(** ** Further properties: [load_eml_text] *)
(* ===================================================================== *)

Section StripFacts.

Lemma lstrip_head (s : str) (c : char) (r : str) :
  lstrip s = c :: r → isspace c = false.
Proof.
  induction s as [|x s IH]; cbn; [done|].
  destruct (isspace x) eqn:Hx; [done|]. by intros [= <- <-].
Qed.

Lemma lstrip_nonspace (c : char) (r : str) :
  isspace c = false → lstrip (c :: r) = c :: r.
Proof. intros Hc. cbn. by rewrite Hc. Qed.

Lemma lstrip_snoc (l : str) (c : char) :
  lstrip (l ++ [c])
  = match lstrip l with
    | [] => if isspace c then [] else [c]
    | _ :: _ => lstrip l ++ [c]
    end.
Proof.
  induction l as [|x l IH]; cbn; [done|].
  destruct (isspace x); [done|]. reflexivity.
Qed.

Lemma rstrip_cons (c : char) (r : str) :
  rstrip (c :: r)
  = match rstrip r with
    | [] => if isspace c then [] else [c]
    | _ :: _ => c :: rstrip r
    end.
Proof.
  unfold rstrip. cbn [rev]. rewrite lstrip_snoc.
  destruct (lstrip (rev r)) as [|x l] eqn:E.
  - cbn. by destruct (isspace c).
  - rewrite rev_app_distr. cbn [rev app].
    destruct (rev l ++ [x]) eqn:E'; [by destruct (rev l)|]. reflexivity.
Qed.

Lemma rstrip_idem (s : str) : rstrip (rstrip s) = rstrip s.
Proof.
  unfold rstrip. rewrite rev_involutive. f_equal.
  induction (rev s) as [|x l IH]; cbn; [done|].
  destruct (isspace x) eqn:Hx; [done|]. cbn. by rewrite Hx.
Qed.

(** Stripping a stripped text changes nothing, on either side. *)
Lemma strip_stripped (s : str) :
  lstrip (strip s) = strip s ∧ rstrip (strip s) = strip s.
Proof.
  unfold strip. split; [|apply rstrip_idem].
  destruct (lstrip s) as [|c r] eqn:E; [done|].
  apply lstrip_head in E. rewrite rstrip_cons.
  destruct (rstrip r).
  - rewrite E. by apply lstrip_nonspace.
  - by apply lstrip_nonspace.
Qed.

Lemma strip_idem (s : str) : strip (strip s) = strip s.
Proof.
  destruct (strip_stripped s) as [Hl Hr].
  unfold strip at 1. by rewrite Hl, Hr.
Qed.

End StripFacts.

Section LoadEml.
Context `{World}.

(** X1. The text [load_eml_text] returns has no white space at either
    end: stripping it again, on the left or on the right, changes
    nothing. *)
Theorem load_eml_text_stripped (path : Path) (text : str) :
  load_eml_text path = Ret text →
  strip text = text ∧ lstrip text = text ∧ rstrip text = text.
Proof.
  unfold load_eml_text. destruct (open_eml path) as [msg|e]; [|done].
  cbn [bind]. destruct (walk msg) as [parts|e]; [|done].
  cbn [bind]. intros [= <-].
  split_and!; [apply strip_idem|apply strip_stripped..].
Qed.

Lemma walk_no_text (m : message) : no_text m → walk m = Ret [].
Proof.
  revert m. fix IH 2. intros m [ctype payload Hleaf|subs Hsubs].
  - cbn. destruct payload as [|c r]; [done|].
    destruct Hleaf as [?|[Hp Hh]]; [done|].
    by rewrite !decide_False.
  - cbn [walk]. induction Hsubs as [|sub subs Hsub Hsubs IHsubs]; [done|].
    rewrite (IH sub Hsub). cbn [bind]. by rewrite IHsubs.
Qed.

(** X2. An e-mail without text loads as the empty string; it is no error.
    Such is an e-mail for each of whose leaves, at any depth of nesting,
    [get_content()] returns, and returns nothing, or the leaf is of a
    content type other than [text/plain] and [text/html]. *)
Theorem load_eml_text_no_text (path : Path) (msg : message) :
  open_eml path = Ret msg →
  no_text msg →
  load_eml_text path = Ret [].
Proof.
  intros Hopen Hmsg. unfold load_eml_text. rewrite Hopen. cbn [bind].
  by rewrite (walk_no_text _ Hmsg).
Qed.

Lemma first_raise_app {A} (l l' : list (outcome A)) :
  first_raise (l ++ l')
  = match first_raise l with Some e => Some e | None => first_raise l' end.
Proof. induction l as [|[a|e] l IH]; cbn; done. Qed.

Lemma walk_first_raise (m : message) :
  match walk m with
  | Ret _ => first_raise (contents m) = None
  | Raise e => first_raise (contents m) = Some e
  end.
Proof.
  revert m. fix IH 1. intros [subs|ctype [payload|e]]; [|done..].
  cbn [walk contents]. induction subs as [|sub subs IHsubs]; [done|].
  cbn [flat_map]. rewrite first_raise_app.
  pose proof (IH sub) as Hsub.
  destruct (walk sub) as [parts|e]; rewrite Hsub; cbn [bind]; [|done].
  match type of IHsubs with match ?w with _ => _ end => destruct w end; done.
Qed.

(** X22. What [get_content()] raises for a leaf is not caught: an e-mail
    that could be opened loads exactly when [get_content()] returns for
    every leaf, and otherwise [load_eml_text] raises what the first leaf
    in document order raises, whatever text the other parts hold. *)
Theorem load_eml_text_raises (path : Path) (msg : message) :
  open_eml path = Ret msg →
  match first_raise (contents msg) with
  | None => ∃ text, load_eml_text path = Ret text
  | Some e => load_eml_text path = Raise e
  end.
Proof.
  intros Hopen. unfold load_eml_text. rewrite Hopen. cbn [bind].
  pose proof (walk_first_raise msg) as Hwalk.
  destruct (walk msg) as [parts|e]; rewrite Hwalk; cbn [bind]; eauto.
Qed.

End LoadEml.

(** An e-mail of two parts: an empty body and an attachment. *)
Lemma load_eml_text_no_text_witness :
  @load_eml_text (Demo.world (drop 1)) Demo.upper_eml = Ret [].
Proof.
  apply (@load_eml_text_no_text (Demo.world (drop 1)) Demo.upper_eml
           Demo.attachment_only).
  - reflexivity.
  - apply no_text_multipart. constructor; [|constructor; [|constructor]].
    + apply no_text_leaf. by left.
    + apply no_text_leaf. right. split; by vm_compute.
Defined.

(** An e-mail with a body and a part of a content type that no content
    manager handles does not load. *)
Lemma load_eml_text_raises_witness :
  @load_eml_text (Demo.world (drop 1)) Demo.model_eml = Raise KeyError.
Proof.
  apply (@load_eml_text_raises (Demo.world (drop 1)) Demo.model_eml
           Demo.body_and_model).
  reflexivity.
Defined.

Lemma load_eml_text_stripped_witness :
  strip (u "Please add Jane Doe.") = u "Please add Jane Doe."
  ∧ lstrip (u "Please add Jane Doe.") = u "Please add Jane Doe."
  ∧ rstrip (u "Please add Jane Doe.") = u "Please add Jane Doe.".
Proof.
  apply (@load_eml_text_stripped (Demo.world (drop 1)) Demo.jane_eml).
  vm_compute; reflexivity.
Defined.

(* ===================================================================== *)
(** ** Further properties: [make_prompt] and [extract_with_llm] *)
(* ===================================================================== *)

Section PromptAndInterpreter.

(** X3. The prompt determines the e-mail text: two texts with the same
    prompt are the same text. Nothing of the text is dropped, cut or
    rewritten on its way into the prompt. *)
Theorem make_prompt_injective (a b : str) :
  make_prompt a = make_prompt b → a = b.
Proof.
  unfold make_prompt. intros Heq.
  do 3 apply app_inv_head in Heq. by apply app_inv_tail in Heq.
Qed.

Lemma parse_generated_text_braces (pre mid post : str) :
  Ch.LBRACE ∉ pre → Ch.RBRACE ∉ pre → Ch.RBRACE ∉ mid →
  parse_generated_text (pre ++ Ch.LBRACE :: mid ++ Ch.RBRACE :: post)
  = loads_with_repair (Ch.LBRACE :: mid ++ [Ch.RBRACE]).
Proof.
  intros Hl Hr Hm. unfold parse_generated_text, find.
  rewrite (find_from_app Ch.LBRACE) by done.
  rewrite (find_from_skip Ch.RBRACE) by done.
  cbn [find_from]. change (Ch.LBRACE =? Ch.RBRACE) with false. cbv iota.
  rewrite (find_from_app Ch.RBRACE) by done.
  pose proof (len_nonneg pre). pose proof (len_nonneg mid).
  replace (_ || _ || _)%Z with false
    by (symmetry; rewrite !orb_false_iff; lia).
  f_equal.
  replace (0 + len pre + 1 + len mid + 1)%Z
    with (len pre + len (Ch.LBRACE :: mid ++ [Ch.RBRACE]))%Z
    by (rewrite len_cons, len_app, len_cons; unfold len; cbn; lia).
  replace (0 + len pre)%Z with (len pre) by lia.
  replace (pre ++ Ch.LBRACE :: mid ++ Ch.RBRACE :: post)
    with (pre ++ (Ch.LBRACE :: mid ++ [Ch.RBRACE]) ++ post)
    by (cbn; by rewrite <- app_assoc).
  apply slice_middle.
Qed.

(** X4. The strict parse has priority. When the text between the first
    opening brace and the first closing brace is valid JSON, the record is
    exactly what [json.loads] gives for it: the repair pass is not
    consulted, so apostrophes inside properly quoted values are not turned
    into double quotes. *)
Theorem parse_generated_text_strict_first (pre mid post : str) (data : json) :
  Ch.LBRACE ∉ pre → Ch.RBRACE ∉ pre → Ch.RBRACE ∉ mid →
  json_loads (Ch.LBRACE :: mid ++ [Ch.RBRACE]) = Ret data →
  parse_generated_text (pre ++ Ch.LBRACE :: mid ++ Ch.RBRACE :: post) = Ret data.
Proof.
  intros Hl Hr Hm Hloads. rewrite parse_generated_text_braces by done.
  unfold loads_with_repair. rewrite Hloads. cbn [bind try_except].
  by rewrite (json_loads_brace_dict _ _ Hloads).
Qed.

(** X5. When the strict parse fails, the record is what [json.loads]
    gives for the span with every apostrophe replaced by a double quote,
    and the empty record when that fails too. *)
Theorem parse_generated_text_repair (pre mid post : str) :
  Ch.LBRACE ∉ pre → Ch.RBRACE ∉ pre → Ch.RBRACE ∉ mid →
  json_loads (Ch.LBRACE :: mid ++ [Ch.RBRACE]) = Raise JSONDecodeError →
  parse_generated_text (pre ++ Ch.LBRACE :: mid ++ Ch.RBRACE :: post)
  = match json_loads (Ch.LBRACE :: replace Ch.SQUOTE Ch.DQUOTE mid ++ [Ch.RBRACE]) with
    | Ret data => Ret data
    | Raise _ => Ret (JObj [])
    end.
Proof.
  intros Hl Hr Hm Hloads. rewrite parse_generated_text_braces by done.
  unfold loads_with_repair. rewrite Hloads. cbn [bind try_except is_Exception].
  replace (replace Ch.SQUOTE Ch.DQUOTE (Ch.LBRACE :: mid ++ [Ch.RBRACE]))
    with (Ch.LBRACE :: replace Ch.SQUOTE Ch.DQUOTE mid ++ [Ch.RBRACE])
    by (unfold replace; by rewrite fmap_cons, fmap_app).
  destruct (json_loads (Ch.LBRACE :: replace _ _ mid ++ _)) as [data|e] eqn:E;
    cbn [try_except]; [done|].
  by rewrite (json_loads_raises_Exception _ _ E).
Qed.

Context `{World}.

(** X6. The only exceptions that leave [extract_with_llm] are those of the
    text-generation pipeline itself: it raises exactly when the pipeline
    raises for the prompt, and with the same exception. *)
Theorem extract_with_llm_raises_iff (email_text : str) (e : exn) :
  extract_with_llm email_text = Raise e ↔ pipe (make_prompt email_text) = Raise e.
Proof.
  unfold extract_with_llm.
  destruct (pipe (make_prompt email_text)) as [out|e'] eqn:Hpipe; cbn [bind].
  - destruct (parse_generated_text_dict out) as [d ->]. by split.
  - split; by intros [= ->].
Qed.

End PromptAndInterpreter.

(** The instance at one text. *)
Lemma make_prompt_injective_witness : u "Please add Jane Doe." = u "Please add Jane Doe.".
Proof.
  apply (make_prompt_injective (u "Please add Jane Doe.") (u "Please add Jane Doe.")).
  reflexivity.
Defined.

(** A generated text with prose around a double-quoted object whose value
    holds an apostrophe. *)
Lemma parse_generated_text_strict_first_witness :
  parse_generated_text
    (u "Sure: " ++ Ch.LBRACE
       :: ([Ch.DQUOTE] ++ u "provider_name" ++ [Ch.DQUOTE] ++ u ": "
           ++ [Ch.DQUOTE] ++ u "O'Brien" ++ [Ch.DQUOTE])
       ++ Ch.RBRACE :: u " Done.")
  = Ret (JObj [(u "provider_name", JStr (u "O'Brien"))]).
Proof.
  apply parse_generated_text_strict_first.
  - apply (bool_decide_unpack _). vm_compute; reflexivity.
  - apply (bool_decide_unpack _). vm_compute; reflexivity.
  - apply (bool_decide_unpack _). vm_compute; reflexivity.
  - vm_compute; reflexivity.
Defined.

(** A single-quoted object is repaired; the same object with an apostrophe
    in a value is beyond repair and gives the empty record. *)
Lemma parse_generated_text_repair_witness :
  parse_generated_text ([] ++ Ch.LBRACE :: u "'tin': '12'" ++ Ch.RBRACE :: [])
  = Ret (JObj [(u "tin", JStr (u "12"))])
  ∧ parse_generated_text
      ([] ++ Ch.LBRACE :: u "'provider_name': 'O'Brien'" ++ Ch.RBRACE :: [])
    = Ret (JObj []).
Proof.
  split.
  - rewrite (parse_generated_text_repair [] (u "'tin': '12'") []).
    + vm_compute; reflexivity.
    + apply not_elem_of_nil.
    + apply not_elem_of_nil.
    + apply (bool_decide_unpack _). vm_compute; reflexivity.
    + vm_compute; reflexivity.
  - rewrite (parse_generated_text_repair [] (u "'provider_name': 'O'Brien'") []).
    + vm_compute; reflexivity.
    + apply not_elem_of_nil.
    + apply not_elem_of_nil.
    + apply (bool_decide_unpack _). vm_compute; reflexivity.
    + vm_compute; reflexivity.
Defined.

(* ===================================================================== *)
(** ** Further properties: the normaliser and the row mapper *)
(* ===================================================================== *)

Section NormalizerMore.
Context `{PyRuntime}.

(** X7. Only the values under the 17 field names count: two candidate
    records that agree on them (whatever else they hold, and whether or not
    they are dicts at all) normalise to the same record. *)
Theorem normalize_ignores_other_keys (e1 e2 : json) :
  (∀ k, k ∈ (map_img TEMPLATE_TO_KEY : gset str) →
        extracted_get e1 k = extracted_get e2 k) →
  normalize e1 = normalize e2.
Proof.
  intros Hagree. apply map_eq. intros k. rewrite !normalize_lookup.
  destruct (decide _) as [Hk|Hk]; [|done]. by rewrite (Hagree k Hk).
Qed.

Lemma build_row_sentinel_record (keys : list (option str)) :
  build_row sentinel_record keys = replicate (length keys) sentinel.
Proof.
  rewrite build_row_map. induction keys as [|key keys IH]; [done|].
  cbn [map length replicate]. rewrite IH. f_equal.
  destruct key as [k|]; [|done]. cbn [row_cell]. unfold sentinel_record.
  destruct (gset_to_gmap sentinel _ !! k) as [v|] eqn:Hv; [|done].
  by apply lookup_gset_to_gmap_Some in Hv as [_ <-].
Qed.

(** X8. A candidate record with nothing usable (no dict, an empty dict, or
    a dict in which every field name is absent or null) normalises to the
    record that holds the sentinel under every field name, and every cell
    of its row is the sentinel, whatever the headers are. *)
Theorem normalize_nothing_usable (extracted : json) (headers : list cell) :
  (∀ k, k ∈ (map_img TEMPLATE_TO_KEY : gset str) → extracted_get extracted k = JNull) →
  normalize extracted = sentinel_record
  ∧ build_row (normalize extracted) (keys_in_order headers)
    = replicate (length headers) sentinel.
Proof.
  intros Hnull.
  assert (Hrec : normalize extracted = sentinel_record).
  { apply map_eq. intros k. rewrite normalize_lookup. unfold sentinel_record.
    rewrite lookup_gset_to_gmap.
    destruct (decide _) as [Hk|Hk].
    - rewrite option_guard_True by done. by rewrite (Hnull k Hk).
    - by rewrite option_guard_False. }
  split; [done|]. rewrite Hrec, build_row_sentinel_record.
  unfold keys_in_order. by rewrite length_map.
Qed.

(** X9. A string value is stored trimmed, or as the sentinel when nothing
    is left of it: the stored value is never empty and has no white space
    at its ends. *)
Theorem final_value_string (s : str) :
  final_value (JStr s) ≠ []
  ∧ strip (final_value (JStr s)) = final_value (JStr s)
  ∧ final_value (JStr s) = (if decide (strip s = []) then sentinel else strip s).
Proof.
  assert (Hfv : final_value (JStr s)
                = (if decide (strip s = []) then sentinel else strip s)).
  { unfold final_value. cbn [py_str].
    destruct (decide (strip s = [])) as [Hs|Hs].
    - by rewrite bool_decide_eq_true_2.
    - by rewrite bool_decide_eq_false_2. }
  rewrite Hfv. split_and!; [| |done].
  - destruct (decide _); [by vm_compute|done].
  - destruct (decide _); [by vm_compute|apply strip_idem].
Qed.

(** X10. A list of strings is stored as its elements joined by a comma
    and a space, each element as it is: elements are not trimmed, and an
    all-blank result is not replaced by the sentinel. *)
Theorem final_value_list_of_strings (l : list str) :
  final_value (JArr (map JStr l)) = join (u ", ") l.
Proof.
  unfold final_value. f_equal.
  induction l as [|s l IH]; [done|]. cbn [map py_str]. by rewrite IH.
Qed.

(** X11. In the row of a normalised record, the cell under a header that
    [TEMPLATE_TO_KEY] knows is the value computed for its field: the
    default of [final.get] is never used there. *)
Theorem build_row_normalize_cell (extracted : json) (headers : list cell)
    (i : nat) (s k : str) :
  headers !! i = Some (CStr s) →
  TEMPLATE_TO_KEY !! s = Some k →
  build_row (normalize extracted) (keys_in_order headers) !! i
  = Some (final_value (extracted_get extracted k)).
Proof.
  intros Hi Hk. rewrite build_row_map. unfold keys_in_order.
  rewrite !list_lookup_fmap, Hi.
  change (Some (row_cell (normalize extracted) (TEMPLATE_TO_KEY !! s))
          = Some (final_value (extracted_get extracted k))).
  rewrite Hk. cbn [row_cell]. rewrite normalize_lookup.
  rewrite decide_True; [done|]. by apply (elem_of_map_img_2 _ s).
Qed.

End NormalizerMore.




Lemma normalize_ignores_other_keys_witness :
  @normalize Demo.runtime
    (JObj [(u "tin", JStr (u "12")); (u "comment", JStr (u "n/a"))])
  = @normalize Demo.runtime (JObj [(u "tin", JStr (u "12"))]).
Proof.
  apply (@normalize_ignores_other_keys Demo.runtime).
  intros k Hk. cbn [extracted_get dict_lookup].
  destruct (decide (u "tin" = k)); [done|].
  destruct (decide (u "comment" = k)) as [<-|]; [|done].
  exfalso. revert Hk. apply (bool_decide_unpack _). vm_compute; reflexivity.
Defined.

Lemma normalize_nothing_usable_witness :
  @normalize Demo.runtime (JArr [JInt 1]) = sentinel_record
  ∧ build_row (@normalize Demo.runtime (JArr [JInt 1]))
      (keys_in_order [CStr (u "TIN"); CNone])
    = replicate (length [CStr (u "TIN"); CNone]) sentinel.
Proof.
  apply (@normalize_nothing_usable Demo.runtime). intros k _. reflexivity.
Defined.

Lemma build_row_normalize_cell_witness :
  build_row (@normalize Demo.runtime (JObj [(u "tin", JStr (u " 12 "))]))
    (keys_in_order [CNone; CStr (u "TIN")]) !! 1%nat
  = Some (@final_value Demo.runtime
            (extracted_get (JObj [(u "tin", JStr (u " 12 "))]) (u "tin"))).
Proof.
  apply (@build_row_normalize_cell Demo.runtime _ _ 1%nat (u "TIN") (u "tin")).
  - reflexivity.
  - vm_compute; reflexivity.
Defined.


(* ===================================================================== *)
(** ** Further properties: [process_eml_files] *)
(* ===================================================================== *)

Section ProcessMore.
Context `{PyRuntime} `{World}.

Lemma save_returns (path : Path) (ws : sheet) (st st' : state) :
  save path ws st = (Ret tt, st') →
  writable path = true
  ∧ st' = {| files := <[path := ws]> (files st); stdout := stdout st |}.
Proof.
  unfold save. destruct (writable path); cbn [negb]; [|done].
  destruct (serialize ws); [|done]. by intros [= <-].
Qed.

Lemma save_frame (path : Path) (ws : sheet) (st st' : state) (o : outcome unit) :
  save path ws st = (o, st') →
  stdout st' = stdout st ∧ ∀ q, q ≠ path → files st' !! q = files st !! q.
Proof.
  unfold save. destruct (negb (writable path)); [by intros [= <- <-]|].
  destruct (serialize ws); intros [= <- <-]; cbn; (split; [done|]); intros q Hq.
  - by rewrite lookup_insert_ne.
  - by rewrite lookup_delete_ne.
Qed.

(** The body of the loop, in one equation: the row is computed first; then
    the template is loaded, the sheet is made from it and the row, and
    saved as the output; then the e-mail is reported. *)
Lemma process_one_spec (keys : list (option str)) (tp op p : Path) (st : state) :
  process_one keys tp op p st
  = match row_of keys p with
    | Raise e => (Raise e, st)
    | Ret row =>
        match files st !! tp with
        | None => (Raise OSError, st)
        | Some t =>
            match add_row t row with
            | Raise e => (Raise e, st)
            | Ret ws =>
                match save op ws st with
                | (Ret _, st') =>
                    (Ret tt, {| files := files st'; stdout := stdout st' ++ [p] |})
                | (Raise e, st') => (Raise e, st')
                end
            end
        end
    end.
Proof.
  unfold process_one, row_of, mbind', lift.
  destruct (load_eml_text p) as [text|e]; [|done]. cbn [bind].
  destruct (extract_with_llm text) as [extracted|e]; [|done]. cbn [bind].
  unfold append_row_to_template, mbind', load_workbook, lift, add_row.
  destruct (files st !! tp) as [t|]; [|done].
  destruct (ws_append _ _) as [ws|e]; [|done].
  by destruct (save op ws st) as [[[]|e] st'].
Qed.

Lemma row_of_ok (keys : list (option str)) (p : Path) :
  (∃ row, row_of keys p = Ret row) ↔ email_ok p.
Proof.
  unfold row_of, email_ok, extract_with_llm. split.
  - intros [row Hrow].
    destruct (load_eml_text p) as [text|e]; [|done]. cbn [bind] in Hrow.
    destruct (pipe (make_prompt text)) as [out|e] eqn:Hpipe; [|done].
    by exists text, out.
  - intros (text & out & -> & Hout). cbn [bind]. rewrite Hout. cbn [bind].
    destruct (parse_generated_text_dict out) as [d ->]. cbn [bind]. eauto.
Qed.

(** A row is bound to cells exactly when it is legal; otherwise binding it
    raises [IllegalCharacterError]. *)
Lemma bind_values_spec (row : list str) :
  bind_values row
  = if legal_row row then Ret (CStr <$> (slice 0 32767 <$> row))
    else Raise IllegalCharacterError.
Proof.
  induction row as [|value row IH]; [done|].
  cbn [bind_values legal_row forallb]. unfold check_string.
  destruct (existsb illegal_character (slice 0 32767 value)); [done|].
  cbn [bind negb andb]. rewrite IH. fold (legal_row row).
  by destruct (legal_row row).
Qed.

Lemma add_row_spec (t : sheet) (row : list str) :
  add_row t row
  = if legal_row row
    then Ret (delete_rows0 t ++ [CStr <$> (slice 0 32767 <$> row)])
    else Raise IllegalCharacterError.
Proof.
  unfold add_row, ws_append. rewrite bind_values_spec.
  by destruct (legal_row row).
Qed.

Lemma process_eml_files_last (paths : list Path) (p tp op : Path)
    (st st' : state) (t : sheet) :
  tp ≠ op →
  files st !! tp = Some t →
  process_eml_files (paths ++ [p]) tp op st = (Ret tt, st') →
  ∃ row ws, row_of (keys_in_order (ws_row1 t)) p = Ret row
            ∧ add_row t row = Ret ws
            ∧ files st' !! op = Some ws
            ∧ files st' !! tp = Some t.
Proof.
  intros Hne Ht. unfold process_eml_files, mbind', load_workbook.
  rewrite Ht. destruct (save op t st) as [[[]|e] st0] eqn:Hsave; [|done].
  apply save_returns in Hsave as [_ ->]. intros Hloop.
  assert (Ht0 : files {| files := <[op := t]> (files st); stdout := stdout st |} !! tp
                = Some t) by (cbn; by rewrite lookup_insert_ne).
  destruct (process_loop_last_row _ _ _ _ _ _ _ _ Hne Ht0 Hloop)
    as (row & ws & Hrow & Hws & Hop).
  exists row, ws. split_and!; [done..|].
  by apply (process_loop_template_kept _ _ _ _ _ _ _ Hne Ht0 Hloop).
Qed.

(** X13. When the output is a file of its own, a run of
    [process_eml_files] that returns leaves in it the sheet made from the
    template and the row of the last e-mail, and no row of an earlier
    e-mail; the template file is as before. *)
Theorem process_eml_files_last_row (paths : list Path) (p tp op : Path)
    (st st' : state) (t : sheet) :
  tp ≠ op →
  files st !! tp = Some t →
  process_eml_files (paths ++ [p]) tp op st = (Ret tt, st') →
  ∃ row ws, row_of (keys_in_order (ws_row1 t)) p = Ret row
            ∧ add_row t row = Ret ws
            ∧ files st' !! op = Some ws
            ∧ files st' !! tp = Some t.
Proof. apply process_eml_files_last. Qed.

Lemma process_loop_same_file (keys : list (option str)) (tp : Path)
    (paths : list Path) (st st' : state) (t : sheet) :
  files st !! tp = Some t →
  process_loop keys tp tp paths st = (Ret tt, st') →
  ∃ rows ws, Forall2 (fun p row => row_of keys p = Ret row) paths rows
             ∧ add_rows t rows = Ret ws
             ∧ files st' !! tp = Some ws.
Proof.
  revert st t. induction paths as [|p paths IH]; intros st t Ht; cbn [process_loop].
  - intros [= <-]. exists [], t. split; [constructor|done].
  - unfold mbind'.
    destruct (process_one keys tp tp p st) as [[[]|e] st1] eqn:Hone; [|done].
    destruct (process_one_files _ _ _ _ _ _ _ Ht Hone) as (row & ws & Hrow & Hws & Hst1).
    intros Hrest.
    apply (IH _ ws) in Hrest as (rows & ws' & Hrows & Hws' & Hfinal);
      [|rewrite Hst1; by rewrite lookup_insert_eq].
    exists (row :: rows), ws'. split; [by constructor|]. split; [|done].
    cbn [add_rows]. rewrite Hws. done.
Qed.

(** X14. When the output path is the template path, every call of
    [append_row_to_template] works on the file the call before it wrote: a
    run that returns leaves in that file the sheet that comes from the
    template sheet by applying, for each e-mail in order, [delete_rows(0)]
    and then the append of its row. What is left of the earlier rows is
    what the calls of [delete_rows(0)] leave of them. *)
Theorem process_eml_files_same_file (paths : list Path) (tp : Path)
    (st st' : state) (t : sheet) :
  files st !! tp = Some t →
  process_eml_files paths tp tp st = (Ret tt, st') →
  ∃ rows ws,
    Forall2 (fun p row => row_of (keys_in_order (ws_row1 t)) p = Ret row) paths rows
    ∧ add_rows t rows = Ret ws
    ∧ files st' !! tp = Some ws.
Proof.
  intros Ht. unfold process_eml_files, mbind', load_workbook.
  rewrite Ht. destruct (save tp t st) as [[[]|e] st0] eqn:Hsave; [|done].
  apply save_returns in Hsave as [_ ->].
  apply process_loop_same_file. cbn. by rewrite lookup_insert_eq.
Qed.

Lemma process_one_frame (keys : list (option str)) (tp op p : Path)
    (st st' : state) (o : outcome unit) :
  process_one keys tp op p st = (o, st') →
  (∀ q, q ≠ op → files st' !! q = files st !! q)
  ∧ stdout st' = stdout st ++ match o with Ret _ => [p] | Raise _ => [] end.
Proof.
  rewrite process_one_spec.
  destruct (row_of keys p) as [row|e];
    [|intros [= <- <-]; by rewrite app_nil_r].
  destruct (files st !! tp) as [t|];
    [|intros [= <- <-]; by rewrite app_nil_r].
  destruct (add_row t row) as [ws|e];
    [|intros [= <- <-]; by rewrite app_nil_r].
  destruct (save op ws st) as [[[]|e] st1] eqn:Hsave;
    apply save_frame in Hsave as [Hout Hfiles]; intros [= <- <-]; cbn.
  - by rewrite Hout.
  - by rewrite Hout, app_nil_r.
Qed.

Lemma process_loop_frame (keys : list (option str)) (tp op : Path)
    (paths : list Path) (st st' : state) (o : outcome unit) :
  process_loop keys tp op paths st = (o, st') →
  (∀ q, q ≠ op → files st' !! q = files st !! q)
  ∧ ∃ reported, reported `prefix_of` paths ∧ stdout st' = stdout st ++ reported.
Proof.
  revert st. induction paths as [|p paths IH]; intros st; cbn [process_loop].
  - intros [= <- <-]. split; [done|]. exists []. split; [done|by rewrite app_nil_r].
  - unfold mbind'.
    destruct (process_one keys tp op p st) as [[[]|e] st1] eqn:Hone;
      apply process_one_frame in Hone as [Hfiles1 Hout1].
    + intros (Hfiles & reported & Hpre & Hout)%IH. split.
      * intros q Hq. by rewrite (Hfiles q Hq), (Hfiles1 q Hq).
      * exists (p :: reported). split; [by apply prefix_cons|].
        rewrite Hout, Hout1. by rewrite <- app_assoc.
    + intros [= <- <-]. split; [done|]. exists [].
      split; [apply prefix_nil|done].
Qed.

Lemma process_eml_files_frame_aux (paths : list Path) (tp op : Path)
    (st st' : state) (o : outcome unit) :
  process_eml_files paths tp op st = (o, st') →
  (∀ q, q ≠ op → files st' !! q = files st !! q)
  ∧ ∃ reported, reported `prefix_of` paths ∧ stdout st' = stdout st ++ reported.
Proof.
  unfold process_eml_files, mbind', load_workbook.
  destruct (files st !! tp) as [t|].
  - destruct (save op t st) as [[[]|e] st0] eqn:Hsave;
      apply save_frame in Hsave as [Hout0 Hfiles0].
    + intros (Hfiles & reported & Hpre & Hout)%process_loop_frame. split.
      * intros q Hq. by rewrite (Hfiles q Hq), (Hfiles0 q Hq).
      * exists reported. split; [done|]. by rewrite Hout, Hout0.
    + intros [= <- <-]. split; [done|]. exists [].
      split; [apply prefix_nil|by rewrite app_nil_r].
  - intros [= <- <-]. split; [done|]. exists [].
    split; [apply prefix_nil|by rewrite app_nil_r].
Qed.

(** X15. Whether it returns or raises, [process_eml_files] changes no file
    but the output file, and what it prints is the [Processed:] line of
    each e-mail of an initial part of its list, in order. *)
Theorem process_eml_files_frame (paths : list Path) (tp op : Path)
    (st : state) :
  (∀ q, q ≠ op →
        files (process_eml_files paths tp op st).2 !! q = files st !! q)
  ∧ ∃ reported,
      reported `prefix_of` paths
      ∧ stdout (process_eml_files paths tp op st).2 = stdout st ++ reported.
Proof.
  destruct (process_eml_files paths tp op st) as [o st'] eqn:Hrun.
  by apply (process_eml_files_frame_aux _ _ _ _ _ _ Hrun).
Qed.

Lemma process_loop_returns (keys : list (option str)) (tp op : Path)
    (paths : list Path) (st st' : state) :
  process_loop keys tp op paths st = (Ret tt, st') →
  Forall (fun p => email_ok p
                   ∧ ∃ row, row_of keys p = Ret row ∧ legal_row row = true) paths.
Proof.
  revert st. induction paths as [|p paths IH]; intros st; cbn [process_loop];
    [constructor|].
  unfold mbind'.
  destruct (process_one keys tp op p st) as [[[]|e] st1] eqn:Hone; [|done].
  intros Hrest%IH. constructor; [|done].
  rewrite process_one_spec in Hone.
  destruct (row_of keys p) as [row|e] eqn:Hrow; [|done].
  split; [apply (row_of_ok keys); eauto|].
  exists row. split; [done|].
  destruct (files st !! tp) as [t|]; [|done].
  rewrite add_row_spec in Hone. by destruct (legal_row row).
Qed.

(** X16. What a run of [process_eml_files] that returns has met: the
    template could be loaded and the output file opened for writing, and
    for every e-mail the text was loaded, the pipeline returned, and the
    row held no character that a cell refuses. *)
Theorem process_eml_files_returns_only_if (paths : list Path) (tp op : Path)
    (st : state) :
  (process_eml_files paths tp op st).1 = Ret tt →
  ∃ t, files st !! tp = Some t
       ∧ writable op = true
       ∧ Forall (fun p => email_ok p
                          ∧ ∃ row, row_of (keys_in_order (ws_row1 t)) p = Ret row
                                   ∧ legal_row row = true) paths.
Proof.
  unfold process_eml_files, mbind', load_workbook.
  destruct (files st !! tp) as [t|] eqn:Ht; [|done].
  destruct (save op t st) as [[[]|e] st0] eqn:Hsave; [|done].
  apply save_returns in Hsave as [Hw _].
  destruct (process_loop _ tp op paths st0) as [[[]|e] st'] eqn:Hloop; [|done].
  intros _. exists t. split_and!; [done..|].
  by apply (process_loop_returns _ _ _ _ _ _ Hloop).
Qed.

Lemma process_loop_loadable (keys : list (option str)) (tp op : Path)
    (paths : list Path) (st st' : state) :
  is_Some (files st !! tp) →
  process_loop keys tp op paths st = (Ret tt, st') →
  is_Some (files st' !! tp).
Proof.
  revert st. induction paths as [|p paths IH]; intros st Ht; cbn [process_loop].
  - by intros [= <-].
  - unfold mbind'.
    destruct (process_one keys tp op p st) as [[[]|e] st1] eqn:Hone; [|done].
    apply IH. destruct Ht as [t Ht].
    destruct (process_one_files _ _ _ _ _ _ _ Ht Hone) as (row & ws & _ & _ & ->).
    destruct (decide (op = tp)) as [->|Hne].
    + rewrite lookup_insert_eq. by eexists.
    + rewrite lookup_insert_ne by done. by eexists.
Qed.

(** X23. What the pipeline generates can end the run: when the row of an
    e-mail holds, within the first 32767 characters of a value, a control
    character other than tab, line feed and carriage return, [ws.append]
    raises [IllegalCharacterError] and nothing catches it. The run ends at
    that e-mail, in the state the e-mails before it left, with nothing
    written for it and no later e-mail processed. *)
Theorem process_eml_files_illegal_character (pre post : list Path)
    (p tp op : Path) (st st1 : state) (t : sheet) (row : list str) :
  process_eml_files pre tp op st = (Ret tt, st1) →
  files st !! tp = Some t →
  row_of (keys_in_order (ws_row1 t)) p = Ret row →
  legal_row row = false →
  process_eml_files (pre ++ p :: post) tp op st = (Raise IllegalCharacterError, st1).
Proof.
  unfold process_eml_files, mbind', load_workbook. intros Hpre Ht Hrow Hlegal.
  rewrite Ht in *.
  destruct (save op t st) as [[[]|e] st0] eqn:Hsave; [|done].
  rewrite process_loop_app, Hpre.
  cbn [process_loop]. unfold mbind'. rewrite process_one_spec, Hrow.
  assert (Hload : is_Some (files st1 !! tp)).
  { refine (process_loop_loadable _ _ _ _ _ _ _ Hpre).
    apply save_returns in Hsave as [_ ->]. cbn.
    destruct (decide (op = tp)) as [->|Hne].
    - rewrite lookup_insert_eq. by eexists.
    - rewrite lookup_insert_ne by done. by eexists. }
  destruct Hload as [t1 ->]. by rewrite add_row_spec, Hlegal.
Qed.

End ProcessMore.

(** Two e-mails into an output file of its own: only John's row is there. *)
Lemma process_eml_files_last_row_witness :
  ∃ row ws,
    @row_of Demo.runtime (Demo.world (drop 1))
      (keys_in_order (ws_row1 Demo.template)) Demo.john_eml = Ret row
    ∧ @add_row (Demo.world (drop 1)) Demo.template row = Ret ws
    ∧ files
        (@process_eml_files Demo.runtime (Demo.world (drop 1))
           ([Demo.jane_eml] ++ [Demo.john_eml])
           Demo.template_xlsx Demo.out_xlsx Demo.st0).2
      !! Demo.out_xlsx
      = Some ws
    ∧ files
        (@process_eml_files Demo.runtime (Demo.world (drop 1))
           ([Demo.jane_eml] ++ [Demo.john_eml])
           Demo.template_xlsx Demo.out_xlsx Demo.st0).2
      !! Demo.template_xlsx
      = Some Demo.template.
Proof.
  apply (@process_eml_files_last_row Demo.runtime (Demo.world (drop 1))
           [Demo.jane_eml] Demo.john_eml Demo.template_xlsx Demo.out_xlsx Demo.st0).
  - apply (bool_decide_unpack _). vm_compute; reflexivity.
  - vm_compute; reflexivity.
  - apply injective_projections; [vm_compute; reflexivity|reflexivity].
Defined.

(** The same two e-mails with the template as the output file, in a world
    whose [delete_rows(0)] takes the first row away: each call removes what
    the call before it appended, and John's row is all that is left. *)
Lemma process_eml_files_same_file_witness :
  (∃ rows ws,
     Forall2
       (fun p row =>
          @row_of Demo.runtime (Demo.world (drop 1))
            (keys_in_order (ws_row1 Demo.template)) p = Ret row)
       [Demo.jane_eml; Demo.john_eml] rows
     ∧ @add_rows (Demo.world (drop 1)) Demo.template rows = Ret ws
     ∧ files
         (@process_eml_files Demo.runtime (Demo.world (drop 1))
            [Demo.jane_eml; Demo.john_eml]
            Demo.template_xlsx Demo.template_xlsx Demo.st0).2
       !! Demo.template_xlsx
       = Some ws)
  ∧ @add_rows (Demo.world (drop 1)) Demo.template [Demo.jane_row; Demo.john_row]
    = Ret [CStr <$> Demo.john_row].
Proof.
  split; [|vm_compute; reflexivity].
  apply (@process_eml_files_same_file Demo.runtime (Demo.world (drop 1))
           [Demo.jane_eml; Demo.john_eml] Demo.template_xlsx Demo.st0).
  - vm_compute; reflexivity.
  - apply injective_projections; [vm_compute; reflexivity|reflexivity].
Defined.

(** The two e-mails of the inbox, read, answered and written. *)
Lemma process_eml_files_returns_only_if_witness :
  ∃ t, files Demo.st0 !! Demo.template_xlsx = Some t
       ∧ @writable (Demo.world (drop 1)) Demo.out_xlsx = true
       ∧ Forall
           (fun p =>
              @email_ok (Demo.world (drop 1)) p
              ∧ ∃ row,
                  @row_of Demo.runtime (Demo.world (drop 1))
                    (keys_in_order (ws_row1 t)) p = Ret row
                  ∧ legal_row row = true)
           [Demo.jane_eml; Demo.john_eml].
Proof.
  apply (@process_eml_files_returns_only_if Demo.runtime (Demo.world (drop 1))
           [Demo.jane_eml; Demo.john_eml] Demo.template_xlsx Demo.out_xlsx Demo.st0).
  vm_compute; reflexivity.
Defined.

(** An e-mail for which the pipeline generates a name with the escape of a
    bell character, between two others: the run ends there, with Jane's row
    written and John's e-mail never read. *)
Lemma process_eml_files_illegal_character_witness :
  @process_eml_files Demo.runtime (Demo.world (drop 1))
    ([Demo.jane_eml] ++ Demo.bell_eml :: [Demo.john_eml])
    Demo.template_xlsx Demo.out_xlsx Demo.st0
  = (Raise IllegalCharacterError,
     {| files := {[ Demo.template_xlsx := Demo.template;
                    Demo.out_xlsx := [CStr <$> Demo.jane_row] ]};
        stdout := [Demo.jane_eml] |}).
Proof.
  apply (@process_eml_files_illegal_character Demo.runtime (Demo.world (drop 1))
           [Demo.jane_eml] [Demo.john_eml] Demo.bell_eml
           Demo.template_xlsx Demo.out_xlsx Demo.st0 _ Demo.template Demo.bell_row).
  - by vm_compute.
  - by vm_compute.
  - by vm_compute.
  - by vm_compute.
Defined.

(* ===================================================================== *)
(** ** Further properties: [main] *)
(* ===================================================================== *)

Set Warnings "-clear-no-such-hyp".

Section MainMore.


Lemma slice_length_bounds {A} (a b : nat) (l : list A) :
  (a < length l)%nat → (0 < b)%nat →
  (0 < length (take b (drop a l)) ≤ b)%nat.
Proof. intros Ha Hb. rewrite length_take, length_drop. lia. Qed.

Lemma batches_sizes {A} (batch : Z) (l : list A) (starts : list Z) :
  (0 < batch)%Z →
  range0 (len l) batch = Ret starts →
  Forall (fun i => (0 < len (slice i (i + batch) l) ≤ batch)%Z) starts.
Proof.
  intros Hb Hr.
  revert Hr. unfold range0.
  replace (batch =? 0)%Z with false by lia.
  replace (0 <? batch)%Z with true by lia.
  intros [= <-]. apply Forall_forall. intros i Hi.
  apply list_elem_of_In, in_map_iff in Hi as (k & <- & Hk).
  apply in_seq in Hk. set (b := Z.to_nat batch).
  replace batch with (Z.of_nat b) in * by (unfold b; lia).
  rewrite <- Nat2Z.inj_mul, slice_take_drop. unfold len in *.
  assert (Hlt : (k * b < length l)%nat).
  { destruct (0 <? Z.of_nat (length l))%Z eqn:Hn; [|lia].
    pose proof (Z.div_mod (Z.of_nat (length l) + Z.of_nat b - 1) (Z.of_nat b) ltac:(lia)).
    pose proof (Z.mod_pos_bound (Z.of_nat (length l) + Z.of_nat b - 1) (Z.of_nat b) Hb).
    assert (Z.of_nat k + 1 ≤ (Z.of_nat (length l) + Z.of_nat b - 1) / Z.of_nat b)%Z by lia.
    nia. }
  pose proof (slice_length_bounds (k * b) b l Hlt ltac:(lia)). lia.
Qed.

(** X17. With a positive batch size, the batches [main] cuts are
    consecutive pieces that make up the list of e-mails in order, each
    piece holding at least one e-mail and at most [batch]: no e-mail is
    left out, repeated or moved. *)
Theorem main_batches_partition {A} (batch : Z) (l : list A) (starts : list Z) :
  (0 < batch)%Z →
  range0 (len l) batch = Ret starts →
  concat (map (fun i => slice i (i + batch) l) starts) = l
  ∧ Forall (fun i => (0 < len (slice i (i + batch) l) ≤ batch)%Z) starts.
Proof.
  intros Hb Hr. split; [by apply batches_cover|by apply batches_sizes].
Qed.

Context `{PyRuntime} `{World}.



Lemma run_batches_frame (starts : list Z) (batch : Z) (paths : list Path)
    (tp op : Path) (st st' : state) (o : outcome unit) :
  run_batches starts batch paths tp op st = (o, st') →
  ∀ q, q ≠ op → files st' !! q = files st !! q.
Proof.
  revert st. induction starts as [|i starts IH]; intros st; cbn [run_batches].
  - by intros [= <- <-].
  - unfold mbind'.
    destruct (process_eml_files _ tp op st) as [[[]|e] st1] eqn:Hone.
    + intros Hrest q Hq. rewrite (IH _ Hrest q Hq).
      by apply (process_eml_files_frame_aux _ _ _ _ _ _ Hone).
    + intros [= <- <-] q Hq.
      by apply (process_eml_files_frame_aux _ _ _ _ _ _ Hone).
Qed.

(** X19. Whatever its arguments and however it ends, [main] changes no
    file other than the output file: the template and every other workbook
    are as before. *)
Theorem main_frame (eml_input tp op : Path) (batch : Z) (st : state) (q : Path) :
  q ≠ op →
  files (main eml_input tp op batch st).2 !! q = files st !! q.
Proof.
  intros Hq. unfold main, mbind', lift.
  destruct (collect_eml_paths eml_input) as [eml_paths|e]; [|done].
  destruct get_llm_pipe as [[]|e]; [|done].
  destruct (range0 (len eml_paths) batch) as [starts|e]; [|done].
  destruct (run_batches starts batch eml_paths tp op st) as [o st'] eqn:Hrun.
  by apply (run_batches_frame _ _ _ _ _ _ _ _ Hrun).
Qed.

(** X25. The model is loaded after the input has been accepted and before
    anything is processed. When the attempt on the device map [auto] raises
    an [Exception] and the attempt on the CPU raises as well, the second
    exception is what ends [main], with nothing processed and nothing
    written. *)
Theorem main_model_not_loaded (eml_input tp op : Path) (batch : Z)
    (st : state) (eml_paths : list Path) (e e' : exn) :
  collect_eml_paths eml_input = Ret eml_paths →
  load_pipeline Auto = Raise e →
  is_Exception e = true →
  load_pipeline Cpu = Raise e' →
  main eml_input tp op batch st = (Raise e', st).
Proof.
  intros Hc Hauto He Hcpu. unfold main, mbind', lift, get_llm_pipe, try_except.
  by rewrite Hc, Hauto, He, Hcpu.
Qed.

Lemma run_batches_last_row (starts : list Z) (batch : Z) (paths : list Path)
    (tp op : Path) (st st' : state) (t : sheet) :
  tp ≠ op →
  files st !! tp = Some t →
  Forall (fun i => slice i (i + batch) paths ≠ []) starts →
  run_batches starts batch paths tp op st = (Ret tt, st') →
  files st' !! tp = Some t
  ∧ ∀ p, last (concat (map (fun i => slice i (i + batch) paths) starts)) = Some p →
         ∃ row ws, row_of (keys_in_order (ws_row1 t)) p = Ret row
                   ∧ add_row t row = Ret ws
                   ∧ files st' !! op = Some ws.
Proof.
  intros Hne. revert st.
  induction starts as [|i starts IH]; intros st Ht Hall; cbn [run_batches map concat].
  - intros [= <-]. split; [done|]. by intros p [=].
  - unfold mbind'.
    destruct (process_eml_files _ tp op st) as [[[]|e] st1] eqn:Hone; [|done].
    apply Forall_cons in Hall as [Hi Hall].
    destruct (slice i (i + batch) paths) as [|x b] eqn:Hb using rev_ind; [done|].
    clear IHb.
    destruct (process_eml_files_last _ _ _ _ _ _ _ Hne Ht Hone)
      as (row & ws & Hrow & Hws & Hop & Ht1).
    intros Hrest. destruct (IH _ Ht1 Hall Hrest) as [Ht' Hlast].
    split; [done|]. intros p. rewrite last_app.
    destruct (last (concat _)) as [q|] eqn:Hq.
    + intros [= <-]. by apply Hlast.
    + rewrite last_snoc. intros [= <-].
      apply last_None in Hq.
      destruct starts as [|j starts].
      * cbn [run_batches] in Hrest. injection Hrest as <-. eauto.
      * apply Forall_cons in Hall as [Hj _]. cbn [map concat] in Hq.
        by apply app_eq_nil in Hq as [? _].
Qed.

(** X26. With a positive batch size and an output file other than the
    template, a run of [main] that returns leaves in the output file the
    sheet made from the template and the row of one e-mail: the last of the
    collected list, which for a directory is the greatest path. The rows
    of the e-mails before it are not in the file. *)
Theorem main_last_row (eml_input tp op : Path) (batch : Z)
    (st st' : state) (t : sheet) :
  (0 < batch)%Z →
  tp ≠ op →
  files st !! tp = Some t →
  main eml_input tp op batch st = (Ret tt, st') →
  ∃ eml_paths p row ws,
    collect_eml_paths eml_input = Ret eml_paths
    ∧ last eml_paths = Some p
    ∧ row_of (keys_in_order (ws_row1 t)) p = Ret row
    ∧ add_row t row = Ret ws
    ∧ files st' !! op = Some ws.
Proof.
  intros Hb Hne Ht. unfold main, mbind', lift.
  destruct (collect_eml_paths eml_input) as [eml_paths|e] eqn:Hc; [|done].
  destruct get_llm_pipe as [[]|e]; [|done].
  destruct (range0 (len eml_paths) batch) as [starts|e] eqn:Hr; [|done].
  intros Hrun.
  assert (Hall : Forall (fun i => slice i (i + batch) eml_paths ≠ []) starts).
  { eapply Forall_impl; [by apply (batches_sizes _ _ _ Hb Hr)|].
    intros i [Hi _] Hnil. by rewrite Hnil in Hi. }
  destruct (run_batches_last_row _ _ _ _ _ _ _ _ Hne Ht Hall Hrun) as [_ Hlast].
  rewrite (batches_cover _ _ _ Hb Hr) in Hlast.
  assert (Hp : is_Some (last eml_paths)).
  { apply last_is_Some. intros ->. revert Hc. unfold collect_eml_paths.
    destruct (is_dir eml_input); cbn [bind].
    - by destruct (sorted _).
    - by destruct (is_file eml_input && _). }
  destruct Hp as [p Hp]. destruct (Hlast p Hp) as (row & ws & ? & ? & ?).
  by exists eml_paths, p, row, ws.
Qed.

End MainMore.

(** Five e-mails in batches of two: two full batches and one of one. *)
Lemma main_batches_partition_witness :
  concat (map (fun i => slice i (i + 2)%Z [10; 11; 12; 13; 14]%Z) [0; 2; 4]%Z)
  = [10; 11; 12; 13; 14]%Z
  ∧ Forall (fun i => (0 < len (slice i (i + 2) [10; 11; 12; 13; 14]) ≤ 2)%Z)
      [0; 2; 4]%Z.
Proof.
  apply (main_batches_partition 2%Z [10; 11; 12; 13; 14]%Z [0; 2; 4]%Z).
  - lia.
  - vm_compute; reflexivity.
Defined.

(** The inbox with a batch size of zero, and of minus two. *)
Lemma main_nonpositive_batch_witness :
  @main Demo.runtime (Demo.world (drop 1))
    Demo.inbox Demo.template_xlsx Demo.out_xlsx 0 Demo.st0
  = (Raise ValueError, Demo.st0)
  ∧ @main Demo.runtime (Demo.world (drop 1))
      Demo.inbox Demo.template_xlsx Demo.out_xlsx (-2) Demo.st0
    = (Ret tt, Demo.st0).
Proof.
  split.
  - apply (@main_nonpositive_batch Demo.runtime (Demo.world (drop 1))
             Demo.inbox Demo.template_xlsx Demo.out_xlsx 0%Z
             [Demo.jane_eml; Demo.john_eml] Demo.st0).
    + vm_compute; reflexivity.
    + lia.
  - apply (@main_nonpositive_batch Demo.runtime (Demo.world (drop 1))
             Demo.inbox Demo.template_xlsx Demo.out_xlsx (-2)%Z
             [Demo.jane_eml; Demo.john_eml] Demo.st0).
    + vm_compute; reflexivity.
    + lia.
Defined.

(** A machine on which the model can be loaded neither way. *)
Lemma main_model_not_loaded_witness :
  @main Demo.runtime Demo.no_model
    Demo.inbox Demo.template_xlsx Demo.out_xlsx 1 Demo.st0
  = (Raise OSError, Demo.st0).
Proof.
  apply (@main_model_not_loaded Demo.runtime Demo.no_model
           Demo.inbox Demo.template_xlsx Demo.out_xlsx 1%Z Demo.st0
           [Demo.jane_eml; Demo.john_eml] RuntimeError OSError).
  - vm_compute; reflexivity.
  - reflexivity.
  - reflexivity.
  - reflexivity.
Defined.

(** The inbox in batches of one: John's e-mail is the last of the sorted
    list, and his row is the one in the output. *)
Lemma main_last_row_witness :
  ∃ eml_paths p row ws,
    @collect_eml_paths (Demo.world (drop 1)) Demo.inbox = Ret eml_paths
    ∧ last eml_paths = Some p
    ∧ @row_of Demo.runtime (Demo.world (drop 1))
        (keys_in_order (ws_row1 Demo.template)) p = Ret row
    ∧ @add_row (Demo.world (drop 1)) Demo.template row = Ret ws
    ∧ files
        (@main Demo.runtime (Demo.world (drop 1))
           Demo.inbox Demo.template_xlsx Demo.out_xlsx 1 Demo.st0).2
      !! Demo.out_xlsx
      = Some ws.
Proof.
  apply (@main_last_row Demo.runtime (Demo.world (drop 1))
           Demo.inbox Demo.template_xlsx Demo.out_xlsx 1%Z Demo.st0).
  - lia.
  - apply (bool_decide_unpack _). vm_compute; reflexivity.
  - vm_compute; reflexivity.
  - apply injective_projections; [vm_compute; reflexivity|reflexivity].
Defined.

(** A run over the inbox leaves the template file as it was. *)
Lemma main_frame_witness :
  files
    (@main Demo.runtime (Demo.world (drop 1))
       Demo.inbox Demo.template_xlsx Demo.out_xlsx 1 Demo.st0).2
    !! Demo.template_xlsx
  = files Demo.st0 !! Demo.template_xlsx.
Proof.
  apply (@main_frame Demo.runtime (Demo.world (drop 1))).
  apply (bool_decide_unpack _). vm_compute; reflexivity.
Defined.

(* ===================================================================== *)
(** ** Further properties: from the generated text to the row *)
(* ===================================================================== *)

Section NoJson.
Context `{PyRuntime} `{World}.

Lemma parse_generated_text_no_brace (out : str) :
  Ch.LBRACE ∉ out ∨ Ch.RBRACE ∉ out → parse_generated_text out = Ret (JObj []).
Proof.
  unfold parse_generated_text, find. intros [Hout|Hout].
  - by rewrite (find_from_notin _ _ _ Hout).
  - rewrite (find_from_notin Ch.RBRACE _ _ Hout). by rewrite orb_true_r.
Qed.

(** X21. An e-mail for which the pipeline generates a text without an
    opening or without a closing brace is processed all the same: its row
    holds the sentinel in every column. *)
Theorem row_of_no_json (headers : list cell) (eml_path : Path) (email_text out : str) :
  load_eml_text eml_path = Ret email_text →
  pipe (make_prompt email_text) = Ret out →
  Ch.LBRACE ∉ out ∨ Ch.RBRACE ∉ out →
  row_of (keys_in_order headers) eml_path
  = Ret (replicate (length headers) sentinel).
Proof.
  intros Hload Hpipe Hout. unfold row_of, extract_with_llm.
  rewrite Hload. cbn [bind]. rewrite Hpipe. cbn [bind].
  rewrite (parse_generated_text_no_brace _ Hout). cbn [bind]. f_equal.
  rewrite build_row_map.
  unfold keys_in_order. rewrite map_map.
  induction headers as [|h headers IH]; [done|].
  cbn [map length replicate]. rewrite IH. f_equal.
  destruct h as [|s| | |]; try reflexivity.
  destruct (TEMPLATE_TO_KEY !! s) as [k|] eqn:Hk; [|done].
  cbn [row_cell]. rewrite normalize_lookup.
  rewrite decide_True by (by apply (elem_of_map_img_2 _ s)).
  reflexivity.
Qed.

End NoJson.

(** A pipeline that answers in prose. *)
Lemma row_of_no_json_witness :
  @row_of Demo.runtime
    {| open_eml := fun _ => Ret (Leaf (u "text/plain") (Ret (u "Hello")));
       soup_get_text := fun s => s;
       load_pipeline := fun _ => Ret tt;
       pipe := fun _ => Ret (u "I could not find any provider.");
       delete_rows0 := fun ws => ws;
       writable := fun _ => true;
       serialize := fun _ => Ret tt;
       is_dir := fun _ => false;
       is_file := fun _ => true;
       scandir := fun _ => [] |}
    (keys_in_order [CStr (u "Provider Name"); CStr (u "Unknown Col"); CStr (u "TIN")])
    Demo.jane_eml
  = Ret (replicate
           (length [CStr (u "Provider Name"); CStr (u "Unknown Col"); CStr (u "TIN")])
           sentinel).
Proof.
  apply (@row_of_no_json Demo.runtime _ _ Demo.jane_eml
           (u "Hello") (u "I could not find any provider.")).
  - vm_compute; reflexivity.
  - reflexivity.
  - left. apply (bool_decide_unpack _). vm_compute; reflexivity.
Defined.
